(** * duecredit.collector: the citation collector and its teardown exporter

    A shallow embedding of [duecredit/collector.py].  Python objects that
    are mutated in place and shared by reference (the [Citation] records) live
    in an explicit store; the collector's two dictionaries are finite maps
    keyed by strings; methods are computations in a state-and-exception
    monad, so that a raised exception leaves the mutations made before it. *)

From Stdlib Require Import ZArith Ascii String.
From stdpp Require Import base gmap strings list pretty.

Local Open Scope Z_scope.

(** ** Python values *)

(** Modelled from the spec: [DueCreditEntry] is defined in
    [duecredit.entries], which is not part of the sources at hand.  The spec
    describes it as an immutable descriptor exposing a stable key plus opaque
    metadata; [oid] stands for the identity of the Python object, so that two
    instances with one key can be told apart. *)
Record DueCreditEntry := mkEntry {
  oid : nat;
  _key : string;
  _rawentry : string
}.

Definition get_key (e : DueCreditEntry) : string := _key e.

(** The values that travel through the collector's methods: [None],
    strings, integers, entry instances and (possibly nested) lists. *)
#[local] Unset Elimination Schemes.
Inductive pyval :=
| PNone
| PStr (s : string)
| PInt (n : Z)
| PEntry (e : DueCreditEntry)
| PList (l : list pyval).
#[local] Set Elimination Schemes.

(** The exceptions the module raises or lets through.  [KeyError] is the
    [LookupError] raised by a failed dictionary subscript. *)
Inductive exn :=
| KeyError (k : pyval)
| TypeError (msg : string)
| AttributeError (msg : string)
| NotImplementedError (msg : string)
| ValueError (msg : string)
| IOError (msg : string)
| Exception (msg : string).

Definition is_LookupError (e : exn) : bool :=
  match e with KeyError _ => true | _ => false end.

Inductive outcome (A : Type) :=
| Return (a : A)
| Raise (e : exn).
Arguments Return {A} a.
Arguments Raise {A} e.

(** ** The store *)

(** [class Citation]: the object built by [Citation.__init__]. *)
Record Citation := mkCitation {
  _entry : DueCreditEntry;
  _use : pyval;
  _level : pyval;
  count : Z
}.

Definition Citation__init__ (entry : DueCreditEntry) (use level : pyval) : Citation :=
  {| _entry := entry; _use := use; _level := level; count := 0 |}.

(** The properties [Citation.level] and [Citation.entry]. *)
Definition level (c : Citation) : pyval := _level c.
Definition entry (c : Citation) : DueCreditEntry := _entry c.

(** A reference to a [Citation] object: its position in the store. *)
Abbreviation loc := nat.

(** The state a method of [DueCreditCollector] runs in: the two dictionaries
    of [self], the store of [Citation] objects the second one points into, and
    the records handed to [lgr.debug]. *)
Record World := mkWorld {
  _entries : gmap string DueCreditEntry;
  citations : gmap string loc;
  heap : list Citation;
  lgr : list string
}.

Definition set_entries (f : gmap string DueCreditEntry → gmap string DueCreditEntry) (w : World) : World :=
  {| _entries := f (_entries w); citations := citations w; heap := heap w; lgr := lgr w |}.
Definition set_citations (f : gmap string loc → gmap string loc) (w : World) : World :=
  {| _entries := _entries w; citations := f (citations w); heap := heap w; lgr := lgr w |}.
Definition set_heap (f : list Citation → list Citation) (w : World) : World :=
  {| _entries := _entries w; citations := citations w; heap := f (heap w); lgr := lgr w |}.
Definition set_lgr (f : list string → list string) (w : World) : World :=
  {| _entries := _entries w; citations := citations w; heap := heap w; lgr := f (lgr w) |}.

(** ** The monad of methods *)

Definition M (A : Type) : Type := World → World * outcome A.

Definition ret {A} (a : A) : M A := λ w, (w, Return a).
Definition raise {A} (e : exn) : M A := λ w, (w, Raise e).
Definition bind {A B} (k : A → M B) (m : M A) : M B :=
  λ w, match m w with
       | (w', Return a) => k a w'
       | (w', Raise e) => (w', Raise e)
       end.
Definition get : M World := λ w, (w, Return w).
Definition modify (f : World → World) : M unit := λ w, (f w, Return tt).

#[global] Instance M_ret : MRet M := @ret.
#[global] Instance M_bind : MBind M := @bind.

(** The final state and the result of running a method. *)
Definition exec {A} (m : M A) (w : World) : World := fst (m w).
Definition eval {A} (m : M A) (w : World) : outcome A := snd (m w).

(** ** [DueCreditCollector] *)

(** [__init__(self, entries=None, citations=None)]: [x or {}] keeps a
    non-empty dictionary and replaces [None] or an empty one by a new empty
    dictionary.  The [Citation] objects the given dictionary refers to are
    passed as the initial store. *)
Definition or_empty {V} (d : option (gmap string V)) : gmap string V :=
  match d with
  | Some m => if decide (m = ∅) then ∅ else m
  | None => ∅
  end.

Definition DueCreditCollector__init__
    (entries : option (gmap string DueCreditEntry))
    (citations0 : option (gmap string loc)) (objects : list Citation) : World :=
  {| _entries := or_empty entries; citations := or_empty citations0;
     heap := objects; lgr := [] |}.

(** [add(self, entry)]. *)
Fixpoint add (entry : pyval) : M unit :=
  match entry with
  | PList l =>
      (fix each (l : list pyval) : M unit :=
         match l with
         | [] => ret tt
         | e :: l' => add e ;; each l'
         end) l
  | PEntry e =>
      let key := get_key e in
      modify (set_entries (λ d, <[key := e]> d))
  | _ => raise (AttributeError "get_key")
  end.

(** The loop of [add] over a list, named. *)
Fixpoint add_each (l : list pyval) : M unit :=
  match l with
  | [] => ret tt
  | e :: l' => add e ;; add_each l'
  end.

(** [self._entries[entry]] for an [entry] that is not an entry instance:
    a list cannot be hashed, any other key that is absent is a [KeyError].
    The keys of the dictionary are the strings [get_key] returns. *)
Definition getitem_entries (k : pyval) : M DueCreditEntry :=
  λ w, match k with
       | PList _ => (w, Raise (TypeError "unhashable type: 'list'"))
       | PStr s =>
           match _entries w !! s with
           | Some e => (w, Return e)
           | None => (w, Raise (KeyError k))
           end
       | _ => (w, Raise (KeyError k))
       end.

(** [self.citations[entry_key] = Citation(entry_, use, level)]: the new
    object takes the next free position of the store. *)
Definition new_citation (entry_key : string) (c : Citation) : M unit :=
  λ w, (set_citations (λ d, <[entry_key := length (heap w)]> d)
          (set_heap (λ h, h ++ [c]) w), Return tt).

(** [self.citations[entry_key]]. *)
Definition getitem_citations (entry_key : string) : M loc :=
  λ w, match citations w !! entry_key with
       | Some l => (w, Return l)
       | None => (w, Raise (KeyError (PStr entry_key)))
       end.

(** [citation.count += 1]: the object at the reference is updated in
    place.  (A reference outside the store, which Python cannot produce,
    would leave the store as it is.) *)
Definition bump (c : Citation) : Citation :=
  {| _entry := _entry c; _use := _use c; _level := _level c; count := count c + 1 |}.

Definition incr_count (citation : loc) : M unit :=
  modify (set_heap (alter bump citation)).

(** [cite(self, entry, use=None, level=None)]; the result is the reference
    to the [Citation] object. *)
Definition cite (entry use level : pyval) : M loc :=
  entry_ ← match entry with
            | PEntry e => add entry ;; mret e
            | _ => getitem_entries entry
            end;
  let entry_key := get_key entry_ in
  w ← get;
  match citations w !! entry_key with
  | None => new_citation entry_key (Citation__init__ entry_ use level)
  | Some _ => mret tt
  end ;;
  citation ← getitem_citations entry_key;
  incr_count citation ;;
  mret citation.

(** The key a call [cite(entry, ...)] works on in state [w], when its
    first step finds an entry. *)
Definition resolve (entry : pyval) (w : World) : option string :=
  match entry with
  | PEntry e => Some (get_key e)
  | PStr s => get_key <$> _entries w !! s
  | _ => None
  end.

(** The count of the citation stored under [k]; [0] when there is none. *)
Definition count_at (k : string) (w : World) : Z :=
  match citations w !! k with
  | Some l => from_option count 0 (heap w !! l)
  | None => 0
  end.

(** The citation object stored under [k]. *)
Definition citation_at (k : string) (w : World) : option Citation :=
  l ← citations w !! k; heap w !! l.

(** *** Calling [cite] with unpacked arguments *)

(** Python's binding of the unpacked [args] and [kwargs] of a call of
    [self.cite] to the parameters [(entry, use=None, level=None)]: too many
    positional arguments, an unknown keyword, a parameter given twice or a
    missing [entry] are a [TypeError]. *)
Definition cite_params : list string := ["entry"; "use"; "level"].

Definition bind_param (args : list pyval) (kwargs : gmap string pyval)
    (i : nat) (name : string) (default0 : option pyval) : outcome pyval :=
  match args !! i, kwargs !! name with
  | Some _, Some _ => Raise (TypeError "got multiple values for argument")
  | Some v, None => Return v
  | None, Some v => Return v
  | None, None =>
      match default0 with
      | Some d => Return d
      | None => Raise (TypeError "missing required positional argument")
      end
  end.

Definition bind_cite (args : list pyval) (kwargs : gmap string pyval)
  : outcome (pyval * pyval * pyval) :=
  if decide (3 < length args)%nat then Raise (TypeError "too many positional arguments")
  else if decide (dom kwargs ⊆ list_to_set (C := gset string) cite_params) then
    match bind_param args kwargs 0 "entry" None,
          bind_param args kwargs 1 "use" (Some PNone),
          bind_param args kwargs 2 "level" (Some PNone) with
    | Return e, Return u, Return l => Return (e, u, l)
    | Raise x, _, _ | _, Raise x, _ | _, _, Raise x => Raise x
    end
  else Raise (TypeError "got an unexpected keyword argument").

Definition cite_call (args : list pyval) (kwargs : gmap string pyval) : M loc :=
  match bind_cite args kwargs with
  | Return (e, u, l) => cite e u l
  | Raise x => raise x
  end.

(** *** The decorator [dcite] *)

(** A Python function: the two attributes [dcite] reads and what a call
    does, as a computation on the state the collector lives in. *)
Record PyFunc := mkFunc {
  __module__ : string;
  __name__ : string;
  __call__ : list pyval → gmap string pyval → M pyval
}.

(** The closure [dcite] returns: its captured [args] and the captured
    [kwargs] dictionary, which [func_wrapper] updates in place. *)
Record Decorator := mkDecorator {
  args : list pyval;
  kwargs : gmap string pyval
}.

Definition dcite (args0 : list pyval) (kwargs0 : gmap string pyval) : Decorator :=
  {| args := args0; kwargs := kwargs0 |}.

Definition deduced_level (func : PyFunc) : pyval :=
  PStr ("func " +:+ __module__ func +:+ "." +:+ __name__ func).

(** [cite_wrapper], called with [fargs] and [fkwargs]. *)
Definition cite_wrapper (args0 : list pyval) (kwargs0 : gmap string pyval)
    (func : PyFunc) (fargs : list pyval) (fkwargs : gmap string pyval) : M pyval :=
  citation ← cite_call args0 kwargs0;
  __call__ func fargs fkwargs.

(** [func_wrapper(func)]: the state of the closure after the call, and the
    wrapper it returns.  [wraps(func)] copies the attributes.  The only
    write to [kwargs] is the one below, made when ["level"] is missing, so the
    dictionary a wrapper reads at call time is the one left here. *)
Definition func_wrapper (d : Decorator) (func : PyFunc) : Decorator * PyFunc :=
  let kwargs' :=
    if decide ("level" ∈ dom (kwargs d)) then kwargs d
    else <["level" := deduced_level func]> (kwargs d) in
  ({| args := args d; kwargs := kwargs' |},
   {| __module__ := __module__ func;
      __name__ := __name__ func;
      __call__ := cite_wrapper (args d) kwargs' func |}).

(** *** [load] *)

(** [str.endswith]: [s] is [suffix] or its tail ends with [suffix]. *)
Fixpoint endswith (s suffix : string) : bool :=
  if decide (s = suffix) then true
  else match s with
       | EmptyString => false
       | String _ s' => endswith s' suffix
       end.

(** [_load_bib(self, src)]: one debug record, nothing else. *)
Definition _load_bib (src : string) : M unit :=
  modify (set_lgr (λ l, l ++ ["Loading " +:+ src])).

(** [load(self, src)]. *)
Definition load (src : pyval) : M unit :=
  match src with
  | PStr s =>
      if endswith s ".bib" then _load_bib s
      else raise (NotImplementedError "Format not yet supported")
  | _ => raise (ValueError "Must be a string")
  end.

(** ** [CollectorGrave] *)

(** *** The string methods used on the setting *)

(** [str.split(sep)] with a one-character separator: every occurrence
    cuts, empty pieces are kept. *)
Fixpoint split (sep : ascii) (s : string) : list string :=
  match s with
  | EmptyString => [EmptyString]
  | String a s' =>
      if decide (a = sep) then EmptyString :: split sep s'
      else match split sep s' with
           | x :: xs => String a x :: xs
           | [] => [String a EmptyString]
           end
  end.

(** A string is held as the bytes of its UTF-8 encoding; cutting at a
    comma, comparing with an ASCII word and testing for the empty string are
    the same on the bytes as on the characters.

    [str.lower()] and [str.strip()] are methods of the interpreter, which
    follow the Unicode tables on text that is not ASCII.  The constructor
    below takes them as the parameters [lower] and [strip], and what is proved
    of it holds for whatever they compute.

    To run the constructor on a given setting, here is what the two methods
    do on strings of ASCII characters: [lower] moves [A] to [Z] to [a] to [z],
    [strip] drops from both ends the characters 9 to 13, 28 to 31 and the
    blank. *)
Definition ascii_lower_char (a : ascii) : ascii :=
  let n := nat_of_ascii a in
  if decide (65 ≤ n ≤ 90)%nat then ascii_of_nat (n + 32) else a.

Fixpoint ascii_lower (s : string) : string :=
  match s with
  | EmptyString => EmptyString
  | String a s' => String (ascii_lower_char a) (ascii_lower s')
  end.

Definition ascii_space (a : ascii) : bool :=
  let n := nat_of_ascii a in
  bool_decide ((9 ≤ n ≤ 13)%nat ∨ (28 ≤ n ≤ 32)%nat).

Fixpoint ascii_lstrip (s : string) : string :=
  match s with
  | EmptyString => EmptyString
  | String a s' => if ascii_space a then ascii_lstrip s' else s
  end.

Definition ascii_rstrip (s : string) : string :=
  String.rev (ascii_lstrip (String.rev s)).
Definition ascii_strip (s : string) : string := ascii_rstrip (ascii_lstrip s).

(** *** Output handlers *)

Inductive stream := sys_stdout | sys_stderr.

#[global] Instance stream_eq_dec : EqDecision stream.
Proof. solve_decision. Defined.

(** The handlers of [duecredit.io], as [_get_output_handler] builds them:
    [TextOutput(stream, collector)] and [PickleOutput(collector, fn=fn)].
    The collector they refer to is the one whose state is current when
    [dump] runs. *)
Inductive Output :=
| TextOutput (fd : stream)
| PickleOutput (fn : option string).

#[global] Instance Output_eq_dec : EqDecision Output.
Proof. solve_decision. Defined.

(** [getattr(sys, type_)] for the two names the factory passes. *)
Definition getattr_sys (name : string) : stream :=
  if decide (name = "stdout") then sys_stdout else sys_stderr.

(** [_get_output_handler(type_, collector, fn=None)]. *)
Definition _get_output_handler (type_ : string) (fn : option string) : outcome Output :=
  if bool_decide (type_ ∈ ["stdout"; "stderr"]) then Return (TextOutput (getattr_sys type_))
  else if decide (type_ = "pickle") then Return (PickleOutput fn)
  else Raise (NotImplementedError "").

(** The object [__init__] builds.  Its [_due] is the collector, whose
    state is the one current at teardown. *)
Record CollectorGrave := mkGrave {
  fn : string;
  _outputs : list Output
}.

(** [fn or '.duecredit.p']: [None] and the empty string are false. *)
Definition or_str (fn : option string) (d : string) : string :=
  match fn with
  | Some s => if decide (s = "") then d else s
  | None => d
  end.

(** The list comprehension of [__init__]: the pieces that are not empty,
    each handed to the factory in order as [type_.lower().strip()]; the first
    exception ends it. *)
Fixpoint handlers (lower strip : string → string) (fn : option string)
    (types : list string) : outcome (list Output) :=
  match types with
  | [] => Return []
  | type_ :: rest =>
      if decide (type_ = "") then handlers lower strip fn rest
      else match _get_output_handler (strip (lower type_)) fn with
           | Return o =>
               match handlers lower strip fn rest with
               | Return os => Return (o :: os)
               | Raise e => Raise e
               end
           | Raise e => Raise e
           end
  end.

(** [CollectorGrave.__init__(self, collector, fn=None)] in the environment
    [environ], with the interpreter's [lower] and [strip]. *)
Definition CollectorGrave__init__ (lower strip : string → string)
    (environ : gmap string string) (fn : option string)
  : outcome CollectorGrave :=
  let setting := default "stdout" (environ !! "DUECREDIT_OUTPUTS") in
  match handlers lower strip fn (split "," setting) with
  | Return os => Return {| fn := or_str fn ".duecredit.p"; _outputs := os |}
  | Raise e => Raise e
  end.

(** *** Teardown *)

Section Teardown.
(** What [output.dump()] does is defined in [duecredit.io]; here it is a
    parameter acting on some state [S] of streams and files. *)
Context {S : Type} (dump : Output → S → S * outcome unit).

(** [CollectorGrave.__del__(self)] on [self._outputs].  An exception that
    leaves [__del__] is reported by the interpreter and dropped; the loop has
    ended with it all the same. *)
Fixpoint __del__ (outputs : list Output) (s : S) : S * outcome unit :=
  match outputs with
  | [] => (s, Return tt)
  | output :: rest =>
      match dump output s with
      | (s', Return _) => __del__ rest s'
      | (s', Raise e) => (s', Raise e)
      end
  end.

(** The handlers whose [dump] the loop of [__del__] calls. *)
Fixpoint attempted (outputs : list Output) (s : S) : list Output :=
  match outputs with
  | [] => []
  | output :: rest =>
      match dump output s with
      | (s', Return _) => output :: attempted rest s'
      | (s', Raise e) => [output]
      end
  end.
End Teardown.

(** Modelled from the spec: the sinks of [duecredit.io], which is not part
    of the sources at hand.  A text sink writes a rendering of the
    collector's current state to its stream; the pickle sink persists a
    snapshot of it to its path and fails when the path cannot be written.
    What is written is kept as the snapshot itself. *)
Record Sinks := mkSinks {
  collector : World;
  stdout : list World;
  stderr : list World;
  files : gmap string World;
  unwritable : gset string
}.

Definition sink_dump (output : Output) (s : Sinks) : Sinks * outcome unit :=
  match output with
  | TextOutput sys_stdout =>
      ({| collector := collector s; stdout := stdout s ++ [collector s];
          stderr := stderr s; files := files s; unwritable := unwritable s |}, Return tt)
  | TextOutput sys_stderr =>
      ({| collector := collector s; stdout := stdout s;
          stderr := stderr s ++ [collector s]; files := files s;
          unwritable := unwritable s |}, Return tt)
  | PickleOutput fn =>
      let path := default ".duecredit.p" fn in
      if decide (path ∈ unwritable s) then (s, Raise (IOError path))
      else ({| collector := collector s; stdout := stdout s; stderr := stderr s;
               files := <[path := collector s]> (files s);
               unwritable := unwritable s |}, Return tt)
  end.

(** ** Sequences of calls and state predicates *)

(** A run of [cite] calls, each given as [(entry, use, level)], collecting
    the references returned. *)
Fixpoint cites (calls : list (pyval * pyval * pyval)) : M (list loc) :=
  match calls with
  | [] => mret []
  | (a, u, lv) :: rest =>
      l ← cite a u lv;
      ls ← cites rest;
      mret (l :: ls)
  end.

(** Every call of the run works on key [k], in the state it is made in. *)
Fixpoint all_resolve (k : string) (calls : list (pyval * pyval * pyval))
    (w : World) : Prop :=
  match calls with
  | [] => True
  | (a, u, lv) :: rest =>
      resolve a w = Some k ∧ all_resolve k rest (exec (cite a u lv) w)
  end.

(** The entry a call [cite(entry, ...)] uses. *)
Definition resolve_entry (entry : pyval) (w : World) : option DueCreditEntry :=
  match entry with
  | PEntry e => Some e
  | PStr s => _entries w !! s
  | _ => None
  end.

(** The state after the first step of [cite]: an entry instance has been
    registered, a key has only been looked up. *)
Definition registered (entry : pyval) (w : World) : World :=
  match entry with
  | PEntry e => set_entries (λ d, <[get_key e := e]> d) w
  | _ => w
  end.

(** References held by the citation dictionary point into the store; in
    Python a reference always does. *)
Definition store_ok (w : World) : Prop :=
  ∀ k l, citations w !! k = Some l → (l < length (heap w))%nat.

(** The invariant of the data model: a key of the citation dictionary is a
    key of the entry dictionary. *)
Definition backed (w : World) : Prop :=
  dom (citations w) ⊆ dom (_entries w).

(** Every entry is stored under its own key. *)
Definition own_key (w : World) : Prop :=
  ∀ k e, _entries w !! k = Some e → get_key e = k.

(** What a call of [add] may change: it writes to the entry dictionary
    only, and only adds or replaces entries under their own keys. *)
Definition add_frame (w w' : World) : Prop :=
  citations w' = citations w ∧ heap w' = heap w ∧ lgr w' = lgr w ∧
  dom (_entries w) ⊆ dom (_entries w') ∧
  (own_key w → own_key w').

(** The state [cite] leaves when it has to create the citation. *)
Definition created (k : string) (c : Citation) (w : World) : World :=
  {| _entries := _entries w;
     citations := <[k := length (heap w)]> (citations w);
     heap := heap w ++ [bump c];
     lgr := lgr w |}.

(** The handlers a setting stands for, read off the spec: each piece that is
    not empty, lower-cased and stripped, names a sink. *)
Definition recognized (id : string) : Prop :=
  id ∈ ["stdout"; "stderr"; "pickle"].

Definition sink_of (fn : option string) (id : string) : Output :=
  if decide (id = "stdout") then TextOutput sys_stdout
  else if decide (id = "stderr") then TextOutput sys_stderr
  else PickleOutput fn.


(** The count of the citation object at [l]; [0] while there is none. *)
Definition count_of (l : loc) (w : World) : Z :=
  from_option count 0 (heap w !! l).

(** ** Text *)

(** Python's truth value of a value: [None], the empty string, zero and
    the empty list are false.  An instance of a class is true unless the
    class says otherwise, which [DueCreditEntry] is taken not to. *)
Definition truthy (v : pyval) : bool :=
  match v with
  | PNone => false
  | PStr s => negb (bool_decide (s = ""))
  | PInt n => negb (bool_decide (n = 0))
  | PEntry _ => true
  | PList l => match l with [] => false | _ => true end
  end.

(** [sep.join(l)]. *)
Fixpoint join (sep : string) (l : list string) : string :=
  match l with
  | [] => ""
  | [x] => x
  | x :: l' => x +:+ sep +:+ join sep l'
  end.

Section Repr.
(** The built-in [repr] on the values at hand; on an entry it is the
    [__repr__] of [duecredit.entries]. *)
Context (repr : pyval → string).

(** [Citation.__repr__(self)]. *)
Definition Citation__repr__ (c : Citation) : string :=
  let args := [repr (PEntry (_entry c))] in
  let args := if truthy (_use c) then args ++ ["use=" +:+ repr (_use c)] else args in
  let args :=
    if truthy (_level c) then args ++ ["level=" +:+ repr (_level c)] else args in
  let args := match args with [] => "" | _ => join ", " args end in
  "Citation" +:+ "(" +:+ args +:+ ")".
End Repr.

(** [DueCreditCollector.__str__(self)]; [{0:d}] prints a length in
    decimal. *)
Definition DueCreditCollector__str__ (w : World) : string :=
  "DueCreditCollector" +:+ " " +:+ pretty (size (_entries w)) +:+ " entries, "
    +:+ pretty (size (citations w)) +:+ " citations".

(** ** Runs of method calls *)

(** A call of one of the collector's methods from outside. *)
Inductive op :=
| CallAdd (entry : pyval)
| CallCite (entry use level : pyval)
| CallLoad (src : pyval).

(** The state the call leaves, whether it returned or raised. *)
Definition step (o : op) (w : World) : World :=
  match o with
  | CallAdd v => exec (add v) w
  | CallCite a u lv => exec (cite a u lv) w
  | CallLoad src => exec (load src) w
  end.

Definition steps (ops : list op) (w : World) : World :=
  foldl (λ w o, step o w) w ops.

(** What holds of a collector that has only been worked on through its
    methods: entries sit under their own keys, citations are backed by
    entries, the citation under a key is an object in the store built on an
    entry of that key and cited at least once, and no object is the citation
    of two keys. *)
Definition consistent (w : World) : Prop :=
  own_key w ∧ backed w ∧
  (∀ k l, citations w !! k = Some l →
          ∃ c, heap w !! l = Some c ∧ get_key (_entry c) = k ∧ 1 ≤ count c) ∧
  (∀ k1 k2 l, citations w !! k1 = Some l → citations w !! k2 = Some l → k1 = k2).

(** The entry that ends up under [k] when the entries [es] are registered
    in order: the last one of key [k]. *)
Definition last_with_key (k : string) (es : list DueCreditEntry)
  : option DueCreditEntry :=
  last (filter (λ e, get_key e = k) es).

(** [n] calls of a function in a row, the results dropped. *)
Fixpoint call_n (n : nat) (func : PyFunc) (fargs : list pyval)
    (fkwargs : gmap string pyval) : M unit :=
  match n with
  | O => mret tt
  | S n' => __call__ func fargs fkwargs ;; call_n n' func fargs fkwargs
  end.

(** The entries [add] meets, in order, walking nested lists from left to
    right, up to the first element that is neither an entry nor a list; the
    flag tells whether the walk went through. *)
Fixpoint walk (v : pyval) : list DueCreditEntry * bool :=
  match v with
  | PEntry e => ([e], true)
  | PList l =>
      (fix walk_each (l : list pyval) : list DueCreditEntry * bool :=
         match l with
         | [] => ([], true)
         | v' :: l' =>
             let (es, ok) := walk v' in
             if ok then let (es', ok') := walk_each l' in (es ++ es', ok')
             else (es, false)
         end) l
  | _ => ([], false)
  end.

Fixpoint walk_each (l : list pyval) : list DueCreditEntry * bool :=
  match l with
  | [] => ([], true)
  | v :: l' =>
      let (es, ok) := walk v in
      if ok then let (es', ok') := walk_each l' in (es ++ es', ok')
      else (es, false)
  end.

(** Registering the entries [es] in order. *)
Definition register_all (es : list DueCreditEntry)
    (d : gmap string DueCreditEntry) : gmap string DueCreditEntry :=
  foldl (λ d e, <[get_key e := e]> d) d es.

(** The number of calls in a run that are calls of [cite] working on key
    [k], each looked at in the state it is made in. *)
Fixpoint cites_of (k : string) (ops : list op) (w : World) : nat :=
  match ops with
  | [] => 0
  | o :: ops' =>
      (match o with
       | CallCite a _ _ => if decide (resolve a w = Some k) then 1 else 0
       | _ => 0
       end + cites_of k ops' (step o w))%nat
  end.

(** ** Sample objects *)

Definition paper : DueCreditEntry := mkEntry 1 "K1" "A paper".
Definition paper' : DueCreditEntry := mkEntry 2 "K1" "A paper, typed again".
Definition misfiled : DueCreditEntry := mkEntry 3 "b" "Stored under another key".

(** A collector made with no arguments, and the same after [add(paper)]. *)
Definition empty_collector : World := DueCreditCollector__init__ None None [].
Definition with_paper : World := exec (add (PEntry paper)) empty_collector.

(** A collector handed an entry dictionary whose key ["a"] holds an entry
    with key ["b"]. *)
Definition misfiled_collector : World :=
  DueCreditCollector__init__ (Some {["a" := misfiled]}) None [].

(** Two functions of module [m] that return at once, and one that raises. *)
Definition f_func : PyFunc := mkFunc "m" "f" (λ _ _, mret (PInt 42)).
Definition g_func : PyFunc := mkFunc "m" "g" (λ _ _, mret PNone).
Definition failing_func : PyFunc :=
  mkFunc "m" "broken" (λ _ _, raise (Exception "boom")).

(** A function that leaves a mark in the log when it runs. *)
Definition noting_func : PyFunc :=
  mkFunc "m" "noting" (λ _ _, modify (set_lgr (λ l, l ++ ["ran"])) ;; mret PNone).

(** Streams and files at teardown, with one path that cannot be written. *)
Definition ro_sinks : Sinks :=
  {| collector := with_paper; stdout := []; stderr := []; files := ∅;
     unwritable := {["/ro/duecredit.p"]} |}.

(** * Properties *)

(** ** Induction on values *)

Lemma pyval_ind (P : pyval → Prop) :
  P PNone →
  (∀ s, P (PStr s)) →
  (∀ n, P (PInt n)) →
  (∀ e, P (PEntry e)) →
  (∀ l, Forall P l → P (PList l)) →
  ∀ v, P v.
Proof.
  intros HN HS HI HE HL.
  fix IH 1. intros [| s | n | e | l].
  - exact HN.
  - apply HS.
  - apply HI.
  - apply HE.
  - apply HL. induction l as [| v l IHl]; constructor; [apply IH | exact IHl].
Qed.

(** ** The monad *)

Lemma bind_Return {A B} (m : M A) (k : A → M B) w w' a :
  m w = (w', Return a) → (m ≫= k) w = k a w'.
Proof. intros H. unfold mbind, M_bind, bind. by rewrite H. Qed.

Lemma bind_Raise {A B} (m : M A) (k : A → M B) w w' e :
  m w = (w', Raise e) → (m ≫= k) w = (w', Raise e).
Proof. intros H. unfold mbind, M_bind, bind. by rewrite H. Qed.

(** ** [add] *)

Lemma add_PEntry e w :
  add (PEntry e) w = (set_entries (λ d, <[get_key e := e]> d) w, Return tt).
Proof. reflexivity. Qed.

Lemma add_PList l : add (PList l) = add_each l.
Proof.
  simpl. induction l as [| v l IH]; simpl; [done |]. by rewrite IH.
Qed.

Lemma add_each_cons v l w :
  add_each (v :: l) w =
  match add v w with
  | (w', Return _) => add_each l w'
  | (w', Raise e) => (w', Raise e)
  end.
Proof. reflexivity. Qed.

Lemma add_frame_refl w : add_frame w w.
Proof. by repeat split. Qed.

Lemma add_frame_trans w1 w2 w3 : add_frame w1 w2 → add_frame w2 w3 → add_frame w1 w3.
Proof.
  intros (? & ? & ? & ? & ?) (? & ? & ? & ? & ?).
  repeat split; try congruence; [set_solver | auto].
Qed.

Lemma add_frame_insert e w :
  add_frame w (set_entries (λ d, <[get_key e := e]> d) w).
Proof.
  repeat split; simpl.
  - rewrite dom_insert_L. set_solver.
  - intros Hown k e' Hk. simpl in Hk.
    destruct (decide (get_key e = k)) as [<- | Hne].
    + rewrite lookup_insert_eq in Hk. by inversion Hk.
    + rewrite lookup_insert_ne in Hk by done. eauto.
Qed.

Lemma add_frames v : ∀ w, add_frame w (exec (add v) w).
Proof.
  induction v as [| s | n | e | l IH] using pyval_ind; intros w;
    try apply add_frame_refl.
  - apply add_frame_insert.
  - rewrite add_PList. revert w.
    induction IH as [| v l Hv _ IHl]; intros w; [apply add_frame_refl |].
    unfold exec in *. rewrite add_each_cons.
    specialize (Hv w). destruct (add v w) as [w1 [[] | x]]; simpl in *; [| done].
    eapply add_frame_trans; [exact Hv | apply IHl].
Qed.

(** ** [cite] *)

Lemma alter_snoc {A} (f : A → A) (h : list A) (c : A) :
  alter f (length h) (h ++ [c]) = h ++ [f c].
Proof.
  rewrite alter_app_r_alt by lia. by rewrite Nat.sub_diag.
Qed.

(** The first step of [cite] on an argument that resolves. *)
Lemma cite_first_step a w e :
  resolve_entry a w = Some e →
  match a with
  | PEntry e => add a ;; mret e
  | _ => getitem_entries a
  end w = (registered a w, Return e).
Proof.
  destruct a as [| s | n | e0 | l]; simpl; try done.
  - intros ->. done.
  - by intros [= ->].
Qed.

Lemma resolve_resolve_entry a w k :
  resolve a w = Some k ↔ ∃ e, resolve_entry a w = Some e ∧ get_key e = k.
Proof.
  destruct a as [| s | n | e0 | l]; simpl;
    try (split; [done | by intros (? & ? & ?)]).
  - rewrite fmap_Some. split; intros (e & He & Hk); eauto.
  - split.
    + intros [= <-]. eauto.
    + by intros (e & [= <-] & <-).
Qed.

Lemma citations_registered a w : citations (registered a w) = citations w.
Proof. by destruct a. Qed.

Lemma heap_registered a w : heap (registered a w) = heap w.
Proof. by destruct a. Qed.

Lemma cite_fresh a u lv w e :
  resolve_entry a w = Some e →
  citations w !! get_key e = None →
  cite a u lv w =
    (created (get_key e) (Citation__init__ e u lv) (registered a w),
     Return (length (heap w))).
Proof.
  intros Ha Hc. unfold cite.
  erewrite bind_Return by (by apply cite_first_step).
  unfold mbind, M_bind, bind, get, new_citation, getitem_citations,
    incr_count, modify, mret, M_ret, ret.
  rewrite citations_registered, Hc. simpl.
  rewrite lookup_insert_eq. unfold created, set_heap, set_citations. simpl.
  by rewrite alter_snoc, heap_registered.
Qed.

Lemma cite_existing a u lv w e l :
  resolve_entry a w = Some e →
  citations w !! get_key e = Some l →
  cite a u lv w = (set_heap (alter bump l) (registered a w), Return l).
Proof.
  intros Ha Hc. unfold cite.
  erewrite bind_Return by (by apply cite_first_step).
  unfold mbind, M_bind, bind, get, new_citation, getitem_citations,
    incr_count, modify, mret, M_ret, ret.
  rewrite citations_registered, Hc. simpl.
  by rewrite citations_registered, Hc.
Qed.

(** A call that does not resolve raises and leaves the state as it was. *)
Lemma cite_unresolved a u lv w :
  resolve_entry a w = None →
  ∃ x, cite a u lv w = (w, Raise x).
Proof.
  intros Ha. unfold cite.
  destruct a as [| s | n | e0 | l]; simpl in Ha; try done;
    try (eexists; by apply bind_Raise).
  eexists. apply bind_Raise. unfold getitem_entries. by rewrite Ha.
Qed.

Lemma count_at_created k c w :
  count_at k (created k c w) = count c + 1.
Proof.
  unfold count_at, created. simpl. rewrite lookup_insert_eq.
  rewrite lookup_app_r by lia. by rewrite Nat.sub_diag.
Qed.

Lemma store_ok_created k c w : store_ok w → store_ok (created k c w).
Proof.
  intros Hok k' l. unfold created. simpl. rewrite length_app. simpl.
  destruct (decide (k = k')) as [<- | Hne].
  - rewrite lookup_insert_eq. intros [= <-]. lia.
  - rewrite lookup_insert_ne by done. intros Hl%Hok. lia.
Qed.

Lemma store_ok_registered a w : store_ok w → store_ok (registered a w).
Proof.
  intros Hok k l. rewrite citations_registered, heap_registered. apply Hok.
Qed.

Lemma store_ok_bumped l w : store_ok w → store_ok (set_heap (alter bump l) w).
Proof.
  intros Hok k l'. unfold set_heap. simpl. rewrite length_alter. apply Hok.
Qed.

Lemma count_at_bumped k l w :
  store_ok w → citations w !! k = Some l →
  count_at k (set_heap (alter bump l) w) = count_at k w + 1.
Proof.
  intros Hok Hk. unfold count_at, set_heap. simpl. rewrite Hk.
  rewrite list_lookup_alter_eq.
  destruct (lookup_lt_is_Some_2 (heap w) l (Hok _ _ Hk)) as [c ->].
  reflexivity.
Qed.

Lemma count_at_registered k a w : count_at k (registered a w) = count_at k w.
Proof. unfold count_at. by rewrite citations_registered, heap_registered. Qed.

(** One call of [cite] on an argument that resolves to [k]. *)
Lemma cite_step k a u lv w :
  store_ok w → resolve a w = Some k →
  ∃ l w', cite a u lv w = (w', Return l) ∧
          store_ok w' ∧
          citations w' !! k = Some l ∧
          count_at k w' = count_at k w + 1 ∧
          (∀ l0, citations w !! k = Some l0 → l = l0) ∧
          (citations w !! k = None → l = length (heap w)).
Proof.
  intros Hok Ha.
  destruct (proj1 (resolve_resolve_entry a w k) Ha) as (e & He & <-).
  destruct (citations w !! get_key e) as [l0 |] eqn:Hc.
  - exists l0, (set_heap (alter bump l0) (registered a w)).
    split; [by apply (cite_existing a u lv w e) |].
    split; [by apply store_ok_bumped, store_ok_registered |].
    split; [simpl; by rewrite citations_registered |].
    split.
    + rewrite count_at_bumped, count_at_registered.
      * reflexivity.
      * by apply store_ok_registered.
      * by rewrite citations_registered.
    + split; [by intros ? [= ->] | done].
  - exists (length (heap w)),
      (created (get_key e) (Citation__init__ e u lv) (registered a w)).
    split; [by apply cite_fresh |].
    split; [by apply store_ok_created, store_ok_registered |].
    split; [simpl; by rewrite lookup_insert_eq, heap_registered |].
    split; [| done].
    rewrite count_at_created. unfold count_at. by rewrite Hc.
Qed.

(** C1. For a key [k] that resolves, every call of [cite] in a run returns
    one and the same [Citation] object, the one stored under [k]: it is the
    object already stored under [k] if there was one, and otherwise a new
    object that the first call adds to the store; its count grows by one with
    every call, so that a citation created by the run (from count 0) ends
    with a count equal to the number of calls. *)
Theorem cite_returns_shared_citation (k : string)
    (calls : list (pyval * pyval * pyval)) (w : World) :
  store_ok w →
  all_resolve k calls w →
  ∃ l, eval (cites calls) w = Return (replicate (length calls) l) ∧
       (calls ≠ [] → citations (exec (cites calls) w) !! k = Some l) ∧
       (∀ l0, citations w !! k = Some l0 → l = l0) ∧
       (citations w !! k = None →
          l = length (heap w) ∧
          count_at k (exec (cites calls) w) = Z.of_nat (length calls)) ∧
       count_at k (exec (cites calls) w) =
         count_at k w + Z.of_nat (length calls).
Proof.
  revert w. induction calls as [| [[a u] lv] rest IH]; intros w Hok Hall.
  - exists (default (length (heap w)) (citations w !! k)). simpl.
    split; [done |]. split; [done |].
    split; [by intros l0 -> |].
    split; [| unfold exec; simpl; lia].
    intros Hc. rewrite Hc. split; [done |].
    unfold exec, count_at. simpl. by rewrite Hc.
  - destruct Hall as [Ha Hrest].
    destruct (cite_step k a u lv w Hok Ha)
      as (l & w1 & Hcite & Hok1 & Hl & Hcount & Hsame & Hnew).
    unfold exec in Hrest. rewrite Hcite in Hrest. simpl in Hrest.
    destruct (IH w1 Hok1 Hrest) as (l' & Hev & Hlast & Hkeep & _ & Hsum).
    assert (l' = l) as -> by (by apply Hkeep).
    assert (Hrun : cites ((a, u, lv) :: rest) w =
                   (exec (cites rest) w1, Return (l :: replicate (length rest) l))).
    { simpl. erewrite bind_Return by exact Hcite.
      unfold eval, exec in *.
      destruct (cites rest w1) as [w2 r] eqn:Hr. simpl in *. subst r.
      by erewrite bind_Return by exact Hr. }
    exists l. unfold eval, exec at 1 2 3. rewrite Hrun. simpl.
    assert (Hlen : count_at k (exec (cites rest) w1) =
                   count_at k w + Z.of_nat (S (length rest))) by lia.
    split; [done |].
    split.
    { intros _. destruct rest as [| c rest'].
      - unfold exec. simpl. done.
      - by apply Hlast. }
    split; [done |].
    split; [| done].
    intros Hc. split; [by apply Hnew |].
    rewrite Hlen. unfold count_at at 1. rewrite Hc. lia.
Qed.

Lemma store_ok_no_citations w : citations w = ∅ → store_ok w.
Proof. intros Hc k l. by rewrite Hc, lookup_empty. Qed.

Lemma cite_returns_shared_citation_witness :
  store_ok with_paper ∧
  all_resolve "K1" [(PStr "K1", PNone, PNone); (PEntry paper', PStr "u", PNone)]
    with_paper ∧
  ∃ l, eval (cites [(PStr "K1", PNone, PNone); (PEntry paper', PStr "u", PNone)])
         with_paper = Return [l; l].
Proof.
  assert (Hok : store_ok with_paper) by (by apply store_ok_no_citations).
  assert (Hall : all_resolve "K1"
            [(PStr "K1", PNone, PNone); (PEntry paper', PStr "u", PNone)]
            with_paper) by (by vm_compute).
  split; [exact Hok |]. split; [exact Hall |].
  destruct (cite_returns_shared_citation "K1" _ with_paper Hok Hall)
    as (l & Hev & _).
  exists l. exact Hev.
Defined.

(** C3. [cite] with a key that is not in the entry dictionary raises
    [KeyError], a [LookupError], and the state after the call is the state
    before it: no citation is created, neither dictionary is touched. *)
Theorem cite_unregistered_key_raises (k : string) (use lvl : pyval) (w : World) :
  _entries w !! k = None →
  cite (PStr k) use lvl w = (w, Raise (KeyError (PStr k))) ∧
  is_LookupError (KeyError (PStr k)) = true.
Proof.
  intros Hk. split; [| done].
  unfold cite. apply bind_Raise. unfold getitem_entries. by rewrite Hk.
Qed.

Lemma cite_unregistered_key_raises_witness :
  _entries with_paper !! "nonexistent-key" = None ∧
  cite (PStr "nonexistent-key") PNone PNone with_paper =
    (with_paper, Raise (KeyError (PStr "nonexistent-key"))).
Proof.
  assert (H : _entries with_paper !! "nonexistent-key" = None) by (by vm_compute).
  split; [exact H |].
  exact (proj1 (cite_unregistered_key_raises "nonexistent-key" PNone PNone
                  with_paper H)).
Defined.

(** C10. When a citation already exists for [k], [cite] called with a new
    entry instance of key [k] puts the new instance into the entry dictionary
    and returns the citation that was there, its count raised by one and its
    entry attribute left as it was; if that entry is not the new instance,
    the citation's entry and the dictionary's entry at [k] differ afterwards. *)
Theorem cite_new_instance_keeps_citation (k : string) (l : loc) (c : Citation)
    (e' : DueCreditEntry) (use lvl : pyval) (w : World) :
  citations w !! k = Some l →
  heap w !! l = Some c →
  get_key e' = k →
  let w' := exec (cite (PEntry e') use lvl) w in
  eval (cite (PEntry e') use lvl) w = Return l ∧
  _entries w' !! k = Some e' ∧
  citations w' !! k = Some l ∧
  heap w' !! l = Some (bump c) ∧
  entry (bump c) = entry c ∧
  (entry c ≠ e' → _entries w' !! k ≠ Some (entry (bump c))).
Proof.
  intros Hk Hl <-. unfold exec, eval.
  rewrite (cite_existing (PEntry e') use lvl w e' l eq_refl Hk). simpl.
  rewrite lookup_insert_eq, list_lookup_alter_eq, Hl.
  repeat split; try done.
  intros Hne [= Heq]. by apply Hne.
Qed.

Lemma cite_new_instance_keeps_citation_witness :
  let w := exec (cite (PStr "K1") PNone PNone) with_paper in
  citations w !! "K1" = Some 0%nat ∧
  heap w !! 0%nat = Some (bump (Citation__init__ paper PNone PNone)) ∧
  get_key paper' = "K1" ∧
  eval (cite (PEntry paper') PNone PNone) w = Return 0%nat ∧
  _entries (exec (cite (PEntry paper') PNone PNone) w) !! "K1" = Some paper'.
Proof.
  set (w := exec (cite (PStr "K1") PNone PNone) with_paper).
  assert (H1 : citations w !! "K1" = Some 0%nat) by (by vm_compute).
  assert (H2 : heap w !! 0%nat = Some (bump (Citation__init__ paper PNone PNone)))
    by (by vm_compute).
  assert (H3 : get_key paper' = "K1") by reflexivity.
  destruct (cite_new_instance_keeps_citation "K1" 0%nat _ paper' PNone PNone w
              H1 H2 H3) as (Hr & He & _).
  simpl. repeat split; assumption.
Defined.

(** ** Registration *)

Lemma add_each_entries (es : list DueCreditEntry) (w : World) :
  add_each (PEntry <$> es) w =
    (set_entries (λ d, foldl (λ d e, <[get_key e := e]> d) d es) w, Return tt).
Proof.
  revert w. induction es as [| e es IH]; intros w.
  - by destruct w.
  - rewrite fmap_cons, add_each_cons, add_PEntry, IH. reflexivity.
Qed.

(** C6. [add] takes one entry or a list of entries; the list is worked
    through in order with [add] itself, an entry put into the dictionary under
    its key, replacing what was there.  After [add([A, A'])] with equal keys
    the dictionary holds [A'] under that key and nothing else new, so a
    dictionary that was empty has size one. *)
Theorem add_same_key_latest_wins (A A' : DueCreditEntry) (w : World) :
  get_key A = get_key A' →
  (∀ e w0, add (PEntry e) w0 =
     (set_entries (λ d, <[get_key e := e]> d) w0, Return tt)) ∧
  (∀ v l w0, add (PList (v :: l)) w0 = (add v ;; add (PList l)) w0) ∧
  (∀ es w0, add (PList (PEntry <$> es)) w0 =
     (set_entries (λ d, foldl (λ d e, <[get_key e := e]> d) d es) w0, Return tt)) ∧
  add (PList [PEntry A; PEntry A']) w =
    (set_entries (λ d, <[get_key A' := A']> d) w, Return tt) ∧
  _entries (exec (add (PList [PEntry A; PEntry A'])) w) !! get_key A = Some A' ∧
  (_entries w = ∅ →
     size (_entries (exec (add (PList [PEntry A; PEntry A'])) w)) = 1%nat).
Proof.
  intros HA.
  assert (Hrun : add (PList [PEntry A; PEntry A']) w =
                 (set_entries (λ d, <[get_key A' := A']> d) w, Return tt)).
  { rewrite add_PList. change [PEntry A; PEntry A'] with (PEntry <$> [A; A']).
    rewrite add_each_entries. simpl. unfold set_entries. simpl.
    by rewrite HA, insert_insert_eq. }
  split; [intros; apply add_PEntry |].
  split; [intros; by rewrite !add_PList |].
  split; [intros; rewrite add_PList; apply add_each_entries |].
  split; [exact Hrun |].
  unfold exec. rewrite Hrun. simpl. split.
  - by rewrite HA, lookup_insert_eq.
  - intros ->. by rewrite insert_empty, map_size_singleton.
Qed.

Lemma add_same_key_latest_wins_witness :
  get_key paper = get_key paper' ∧
  map_to_list (_entries (exec (add (PList [PEntry paper; PEntry paper']))
                           empty_collector)) = [("K1", paper')].
Proof.
  assert (H : get_key paper = get_key paper') by reflexivity.
  split; [exact H |].
  destruct (add_same_key_latest_wins paper paper' empty_collector H)
    as (_ & _ & _ & Hrun & _).
  unfold exec. rewrite Hrun. by vm_compute.
Defined.

(** ** The invariant of the two dictionaries *)

(** The two properties that are kept together. *)
Lemma add_keeps v w :
  own_key w ∧ backed w → own_key (exec (add v) w) ∧ backed (exec (add v) w).
Proof.
  intros [Hown Hb].
  destruct (add_frames v w) as (Hc & _ & _ & Hdom & Hown').
  split; [auto |]. unfold backed in *. rewrite Hc. set_solver.
Qed.

Lemma registered_keeps a w e :
  resolve_entry a w = Some e →
  own_key w ∧ backed w →
  own_key (registered a w) ∧ backed (registered a w) ∧
  get_key e ∈ dom (_entries (registered a w)).
Proof.
  intros Ha [Hown Hb].
  destruct a as [| s | n | e0 | l]; simpl in Ha; try done.
  - simpl. repeat split; try done.
    apply elem_of_dom. rewrite <- (Hown _ _ Ha) in Ha. eauto.
  - injection Ha as ->.
    destruct (add_frame_insert e w) as (Hc & _ & _ & Hdom & Hown').
    unfold registered. split; [auto |]. split.
    + unfold backed in *. rewrite Hc. set_solver.
    + simpl. rewrite dom_insert_L. set_solver.
Qed.

Lemma cite_keeps a u lv w :
  own_key w ∧ backed w →
  own_key (exec (cite a u lv) w) ∧ backed (exec (cite a u lv) w).
Proof.
  intros Hw. destruct (resolve_entry a w) as [e |] eqn:Ha.
  - destruct (registered_keeps a w e Ha Hw) as (Hown & Hb & Hin).
    unfold exec. destruct (citations w !! get_key e) as [l |] eqn:Hc.
    + rewrite (cite_existing a u lv w e l Ha Hc). simpl. by split.
    + rewrite (cite_fresh a u lv w e Ha Hc). simpl. split; [done |].
      unfold backed in *. simpl. rewrite dom_insert_L.
      apply union_subseteq. split; [by apply singleton_subseteq_l | done].
  - destruct (cite_unresolved a u lv w Ha) as [x Hx].
    unfold exec. by rewrite Hx.
Qed.

Lemma cite_call_keeps args0 kwargs0 w :
  own_key w ∧ backed w →
  own_key (exec (cite_call args0 kwargs0) w) ∧
  backed (exec (cite_call args0 kwargs0) w).
Proof.
  intros Hw. unfold cite_call.
  destruct (bind_cite args0 kwargs0) as [[[a u] lv] | x]; [| done].
  by apply cite_keeps.
Qed.

(** C7, as the code has it.  A collector in which every entry sits under
    its own key and every key of the citation dictionary is a key of the entry
    dictionary stays so under [add], under [cite], and under a call of a
    [dcite] wrapper whose wrapped function keeps the two properties itself. *)
Theorem backed_preserved (w : World) :
  own_key w → backed w →
  (∀ v, own_key (exec (add v) w) ∧ backed (exec (add v) w)) ∧
  (∀ a u lv, own_key (exec (cite a u lv) w) ∧ backed (exec (cite a u lv) w)) ∧
  (∀ d func fargs fkwargs,
     (∀ w0, own_key w0 ∧ backed w0 →
            own_key (exec (__call__ func fargs fkwargs) w0) ∧
            backed (exec (__call__ func fargs fkwargs) w0)) →
     own_key (exec (__call__ (func_wrapper d func).2 fargs fkwargs) w) ∧
     backed (exec (__call__ (func_wrapper d func).2 fargs fkwargs) w)).
Proof.
  intros Hown Hb.
  split; [intros; by apply add_keeps |].
  split; [intros; by apply cite_keeps |].
  intros d func fargs fkwargs Hf. simpl. unfold cite_wrapper, exec.
  set (kw := if decide ("level" ∈ dom (kwargs d)) then _ else _).
  pose proof (cite_call_keeps (args d) kw w (conj Hown Hb)) as Hc.
  unfold exec in Hc. unfold mbind, M_bind, bind.
  destruct (cite_call (args d) kw w) as [w1 [l | x]]; simpl in *; [| done].
  by apply Hf.
Qed.

Lemma own_key_with_paper : own_key with_paper.
Proof.
  intros k e. unfold with_paper, exec. simpl.
  rewrite insert_empty. intros [<- <-]%lookup_singleton_Some. done.
Qed.

Lemma backed_preserved_witness :
  own_key with_paper ∧ backed with_paper ∧
  backed (exec (cite (PStr "K1") PNone PNone) with_paper).
Proof.
  assert (Hb : backed with_paper).
  { unfold backed. simpl. set_solver. }
  split; [exact own_key_with_paper |]. split; [exact Hb |].
  destruct (backed_preserved with_paper own_key_with_paper Hb) as (_ & Hc & _).
  exact (proj2 (Hc (PStr "K1") PNone PNone)).
Defined.

(** C7 as stated fails: the collector [misfiled_collector] satisfies the
    invariant (it has no citations), and after [cite("a")] the citation
    dictionary has the key ["b"], which the entry dictionary lacks. *)
Lemma backed_broken_by_misfiled_entry :
  backed misfiled_collector ∧
  citations (exec (cite (PStr "a") PNone PNone) misfiled_collector) !! "b"
    = Some 0%nat ∧
  _entries (exec (cite (PStr "a") PNone PNone) misfiled_collector) !! "b" = None ∧
  ¬ backed (exec (cite (PStr "a") PNone PNone) misfiled_collector).
Proof.
  assert (H1 : citations (exec (cite (PStr "a") PNone PNone) misfiled_collector)
                 !! "b" = Some 0%nat) by (by vm_compute).
  assert (H2 : _entries (exec (cite (PStr "a") PNone PNone) misfiled_collector)
                 !! "b" = None) by (by vm_compute).
  split; [unfold backed; simpl; set_solver |].
  split; [exact H1 |]. split; [exact H2 |].
  intros Hb. apply not_elem_of_dom in H2. apply H2, Hb.
  apply elem_of_dom. by rewrite H1.
Qed.

(** ** The decorator *)

(** What a returning call of [cite] does to the store. *)
Lemma cite_effect a u lv w w1 l :
  store_ok w →
  cite a u lv w = (w1, Return l) →
  count_of l w1 = count_of l w + 1 ∧
  (∀ l', l' ≠ l → heap w1 !! l' = heap w !! l') ∧
  (heap w !! l = None →
     ∃ e, resolve_entry a w = Some e ∧
          heap w1 !! l = Some (bump (Citation__init__ e u lv))) ∧
  (∀ c, heap w !! l = Some c → heap w1 !! l = Some (bump c)).
Proof.
  intros Hok Hcite. destruct (resolve_entry a w) as [e |] eqn:Ha.
  - destruct (citations w !! get_key e) as [l0 |] eqn:Hc.
    + rewrite (cite_existing a u lv w e l0 Ha Hc) in Hcite.
      injection Hcite as <- <-. unfold count_of. simpl.
      rewrite heap_registered, list_lookup_alter_eq.
      destruct (lookup_lt_is_Some_2 (heap w) l0 (Hok _ _ Hc)) as [c Hl].
      rewrite Hl. repeat split; try done.
      * intros l' Hne. by rewrite list_lookup_alter_ne.
      * by intros c' [= ->].
    + rewrite (cite_fresh a u lv w e Ha Hc) in Hcite.
      injection Hcite as <- <-. unfold count_of. simpl.
      rewrite heap_registered, lookup_app_r, Nat.sub_diag by lia. simpl.
      rewrite (lookup_ge_None_2 (heap w) (length (heap w))) by lia.
      repeat split; try done.
      * intros l' Hne. destruct (decide (l' < length (heap w))%nat).
        -- by rewrite lookup_app_l.
        -- rewrite !lookup_ge_None_2; [done | lia |].
           rewrite length_app. simpl. lia.
      * intros _. by exists e.
  - destruct (cite_unresolved a u lv w Ha) as [x Hx]. congruence.
Qed.

Lemma cite_raise_unchanged a u lv w w1 x :
  cite a u lv w = (w1, Raise x) → w1 = w.
Proof.
  intros Hcite. destruct (resolve_entry a w) as [e |] eqn:Ha.
  - destruct (citations w !! get_key e) as [l0 |] eqn:Hc.
    + by rewrite (cite_existing a u lv w e l0 Ha Hc) in Hcite.
    + by rewrite (cite_fresh a u lv w e Ha Hc) in Hcite.
  - destruct (cite_unresolved a u lv w Ha) as [x' Hx]. congruence.
Qed.

(** C2, as the code has it.  A call of a [dcite] wrapper first makes the
    one [cite] call on the captured arguments.  When that call returns, the count of the
    citation it returns has grown by one, no other citation object has
    changed, and the call goes on as the wrapped function called in that
    state: its return value, or the exception it raises, with the citation
    already recorded, is the wrapper's.  When the [cite] call raises, the
    wrapper raises the same in the unchanged state, the function not run. *)
Theorem cite_wrapper_cites_then_delegates (d : Decorator) (func : PyFunc)
    (fargs : list pyval) (fkwargs : gmap string pyval) (w : World) :
  store_ok w →
  let captured := (func_wrapper d func).1 in
  let wrapped := (func_wrapper d func).2 in
  match cite_call (args captured) (kwargs captured) w with
  | (w1, Return l) =>
      count_of l w1 = count_of l w + 1 ∧
      (∀ l', l' ≠ l → heap w1 !! l' = heap w !! l') ∧
      __call__ wrapped fargs fkwargs w = __call__ func fargs fkwargs w1 ∧
      (∀ w2 r, __call__ func fargs fkwargs w1 = (w2, Return r) →
               __call__ wrapped fargs fkwargs w = (w2, Return r)) ∧
      (∀ w2 x, __call__ func fargs fkwargs w1 = (w2, Raise x) →
               __call__ wrapped fargs fkwargs w = (w2, Raise x))
  | (w1, Raise x) =>
      w1 = w ∧ __call__ wrapped fargs fkwargs w = (w, Raise x)
  end.
Proof.
  intros Hok. simpl.
  set (kw := if decide ("level" ∈ dom (kwargs d)) then _ else _).
  unfold cite_wrapper.
  destruct (cite_call (args d) kw w) as [w1 [l | x]] eqn:Hcall.
  - assert (Hrun : (cite_call (args d) kw ≫= λ _, __call__ func fargs fkwargs) w
                   = __call__ func fargs fkwargs w1)
      by (by erewrite bind_Return by exact Hcall).
    unfold cite_call in Hcall.
    destruct (bind_cite (args d) kw) as [[[a u] lv] | x]; [| done].
    destruct (cite_effect a u lv w w1 l Hok Hcall) as (Hcount & Hothers & _).
    rewrite Hrun. repeat split; done.
  - assert (w1 = w) as ->.
    { unfold cite_call in Hcall.
      destruct (bind_cite (args d) kw) as [[[a u] lv] | x'].
      - by eapply cite_raise_unchanged.
      - unfold raise in Hcall. congruence. }
    split; [done |]. by erewrite bind_Raise by exact Hcall.
Qed.

Lemma cite_wrapper_cites_then_delegates_witness :
  store_ok with_paper ∧
  __call__ (func_wrapper (dcite [PStr "K1"] ∅) failing_func).2 [] ∅ with_paper =
    (exec (cite (PStr "K1") PNone (PStr "func m.broken")) with_paper,
     Raise (Exception "boom")).
Proof.
  assert (Hok : store_ok with_paper) by (by apply store_ok_no_citations).
  split; [exact Hok |].
  pose proof (cite_wrapper_cites_then_delegates (dcite [PStr "K1"] ∅)
                failing_func [] ∅ with_paper Hok) as H.
  cbv zeta in H.
  destruct (cite_call _ _ with_paper) as [w1 [l | x]] eqn:Hcall.
  - destruct H as (_ & _ & -> & _).
    assert (w1 = exec (cite (PStr "K1") PNone (PStr "func m.broken")) with_paper)
      as -> by (by vm_compute in Hcall; injection Hcall as <- _).
    reflexivity.
  - by vm_compute in Hcall.
Defined.

(** C2 as stated fails: a function decorated with the key ["XXX00"],
    which no entry has.  A call of the wrapper raises the [KeyError] of the
    [cite] call; the collector is as before, so no count has grown, and the
    function, which would have left its mark in the log, has not run. *)
Lemma dcite_unregistered_key_counts_nothing :
  let f' := (func_wrapper (dcite [PStr "XXX00"] ∅) noting_func).2 in
  _entries with_paper !! "XXX00" = None ∧
  __call__ f' [] ∅ with_paper = (with_paper, Raise (KeyError (PStr "XXX00"))) ∧
  heap (exec (__call__ f' [] ∅) with_paper) = heap with_paper ∧
  citations (exec (__call__ f' [] ∅) with_paper) = ∅ ∧
  lgr (exec (__call__ noting_func [] ∅) with_paper) = ["ran"] ∧
  lgr (exec (__call__ f' [] ∅) with_paper) = [].
Proof.
  repeat split; by vm_compute.
Qed.

(** Three calls of a wrapped function: count three, the value unchanged. *)
Example three_calls_count_three :
  let f' := (func_wrapper (dcite [PStr "K1"] ∅) f_func).2 in
  let run := r1 ← __call__ f' [] ∅; r2 ← __call__ f' [] ∅;
             r3 ← __call__ f' [] ∅; mret [r1; r2; r3] in
  eval run with_paper = Return [PInt 42; PInt 42; PInt 42] ∧
  count_at "K1" (exec run with_paper) = 3.
Proof. by vm_compute. Qed.

Lemma bind_cite_level args0 kwargs0 a u lv v :
  bind_cite args0 kwargs0 = Return (a, u, lv) →
  kwargs0 !! "level" = Some v →
  lv = v.
Proof.
  unfold bind_cite. intros Hb Hv.
  destruct (decide (3 < length args0)%nat); [done |].
  destruct (decide (dom kwargs0 ⊆ _)); [| done].
  destruct (bind_param args0 kwargs0 0 "entry" None); [| done].
  destruct (bind_param args0 kwargs0 1 "use" (Some PNone)); [| done].
  unfold bind_param in Hb. rewrite Hv in Hb.
  destruct (args0 !! 2%nat); [done |]. by injection Hb as _ _ <-.
Qed.




(** ** [load] *)

Lemma append_nil (s : string) : "" +:+ s = s.
Proof. reflexivity. Qed.

Lemma append_cons (a : ascii) (p s : string) :
  String a p +:+ s = String a (p +:+ s).
Proof. reflexivity. Qed.

Lemma endswith_spec (s suffix : string) :
  endswith s suffix = true ↔ ∃ p, s = p +:+ suffix.
Proof.
  induction s as [| a s IH]; simpl.
  - destruct (decide ("" = suffix)) as [<- | Hne].
    + split; [intros _; by exists "" | done].
    + split; [done |]. intros [[| b p] Hp]; [| done].
      rewrite append_nil in Hp. by destruct Hne.
  - destruct (decide (String a s = suffix)) as [<- | Hne].
    + split; [intros _; by exists "" | done].
    + rewrite IH. split.
      * intros [p ->]. by exists (String a p).
      * intros [[| b p] Hp].
        -- rewrite append_nil in Hp. by destruct Hne.
        -- rewrite append_cons in Hp. injection Hp as _ ->. by exists p.
Qed.

(** C9. [load] of a string that ends in [.bib] is [_load_bib] of that
    string, which returns; [load] of any other string raises
    [NotImplementedError] (format not supported); [load] of a value that is
    not a string raises [ValueError].  In the two failing cases the state is
    left as it was, and [load] returns only in the first. *)
Theorem load_dispatches_on_extension (src : pyval) (w : World) :
  (∀ p, src = PStr (p +:+ ".bib") →
        load src w = _load_bib (p +:+ ".bib") w ∧ eval (load src) w = Return tt) ∧
  (∀ s, src = PStr s → (∀ p, s ≠ p +:+ ".bib") →
        load src w = (w, Raise (NotImplementedError "Format not yet supported"))) ∧
  ((∀ s, src ≠ PStr s) → load src w = (w, Raise (ValueError "Must be a string"))) ∧
  (eval (load src) w = Return tt ↔ ∃ p, src = PStr (p +:+ ".bib")).
Proof.
  assert (Hyes : ∀ p, load (PStr (p +:+ ".bib")) w = _load_bib (p +:+ ".bib") w).
  { intros p. simpl.
    by rewrite (proj2 (endswith_spec (p +:+ ".bib") ".bib")) by by exists p. }
  assert (Hno : ∀ s, (∀ p, s ≠ p +:+ ".bib") →
                     load (PStr s) w =
                     (w, Raise (NotImplementedError "Format not yet supported"))).
  { intros s Hs. simpl. destruct (endswith s ".bib") eqn:He; [| done].
    apply endswith_spec in He as [p ->]. by destruct (Hs p). }
  split; [intros p ->; unfold eval; by rewrite Hyes |].
  split; [intros s ->; apply Hno |].
  split; [intros Hs; destruct src; try done; by destruct (Hs s) |].
  split.
  - destruct src as [| s | n | e | l]; try done.
    unfold eval. simpl. destruct (endswith s ".bib") eqn:He; [| done].
    apply endswith_spec in He as [p ->]. intros _. by exists p.
  - intros [p ->]. unfold eval. by rewrite Hyes.
Qed.

Lemma load_dispatches_on_extension_witness :
  load (PStr "refs.bib") empty_collector = _load_bib "refs.bib" empty_collector ∧
  load (PStr "refs.ris") empty_collector =
    (empty_collector, Raise (NotImplementedError "Format not yet supported")) ∧
  load (PInt 7) empty_collector =
    (empty_collector, Raise (ValueError "Must be a string")).
Proof.
  split; [| split].
  - exact (proj1 (proj1 (load_dispatches_on_extension (PStr "refs.bib")
                           empty_collector) "refs" eq_refl)).
  - apply (proj1 (proj2 (load_dispatches_on_extension (PStr "refs.ris")
                           empty_collector)) "refs.ris" eq_refl).
    intros p Hp. apply (f_equal (λ s, endswith s ".bib")) in Hp.
    rewrite (proj2 (endswith_spec (p +:+ ".bib") ".bib")) in Hp by (by exists p).
    by vm_compute in Hp.
  - apply (proj1 (proj2 (proj2 (load_dispatches_on_extension (PInt 7)
                                  empty_collector)))).
    intros s. discriminate.
Defined.

(** ** [CollectorGrave] *)

Lemma recognized_cases (id : string) :
  recognized id ↔ id = "stdout" ∨ id = "stderr" ∨ id = "pickle".
Proof.
  unfold recognized. rewrite !elem_of_cons, elem_of_nil. tauto.
Qed.

Lemma factory_recognized (fn : option string) (id : string) :
  recognized id → _get_output_handler id fn = Return (sink_of fn id).
Proof.
  intros [-> | [-> | ->]]%recognized_cases; reflexivity.
Qed.

Lemma factory_unrecognized (fn : option string) (id : string) :
  ¬ recognized id → _get_output_handler id fn = Raise (NotImplementedError "").
Proof.
  intros Hid. unfold _get_output_handler.
  rewrite bool_decide_eq_false_2.
  - rewrite decide_False; [done |]. intros ->. apply Hid, recognized_cases. auto.
  - intros [-> | [-> | []%elem_of_nil]%elem_of_cons]%elem_of_cons;
      apply Hid, recognized_cases; auto.
Qed.





(** ** Teardown *)

(** C4, as the code has it.  [__del__] exports the sinks in order.  When
    the sinks before one have all been exported and the export of that one
    raises, [__del__] ends there with that exception: the state is the one the
    failed export left, and the sinks after it are not attempted. *)
Theorem del_stops_at_first_failure {S : Type}
    (dump : Output → S → S * outcome unit)
    (before after : list Output) (output : Output) (s s1 s2 : S) (x : exn) :
  __del__ dump before s = (s1, Return tt) →
  dump output s1 = (s2, Raise x) →
  __del__ dump (before ++ output :: after) s = (s2, Raise x) ∧
  attempted dump (before ++ output :: after) s = before ++ [output].
Proof.
  revert s. induction before as [| o before IH]; intros s Hbefore Hfail; simpl.
  - injection Hbefore as ->. by rewrite Hfail.
  - simpl in Hbefore. destruct (dump o s) as [s' [[] | y]]; [| done].
    destruct (IH s' Hbefore Hfail) as [-> ->]. done.
Qed.

Lemma del_stops_at_first_failure_witness :
  __del__ sink_dump [TextOutput sys_stderr] ro_sinks =
    ((sink_dump (TextOutput sys_stderr) ro_sinks).1, Return tt) ∧
  attempted sink_dump
    [TextOutput sys_stderr; PickleOutput (Some "/ro/duecredit.p");
     TextOutput sys_stdout] ro_sinks =
    [TextOutput sys_stderr; PickleOutput (Some "/ro/duecredit.p")].
Proof.
  split; [reflexivity |].
  refine (proj2 (del_stops_at_first_failure sink_dump [TextOutput sys_stderr]
                   [TextOutput sys_stdout] (PickleOutput (Some "/ro/duecredit.p"))
                   ro_sinks _ _ (IOError "/ro/duecredit.p") eq_refl _)).
  by vm_compute.
Defined.

(** C4 as stated fails: with the pickle sink on a path that cannot be
    written and standard output after it, the failed export ends [__del__];
    the export to standard output, which on its own writes the snapshot, is
    not attempted and nothing reaches the stream. *)
Lemma del_failure_prevents_later_sinks :
  CollectorGrave__init__ ascii_lower ascii_strip
    {["DUECREDIT_OUTPUTS" := "pickle,stdout"]} (Some "/ro/duecredit.p") =
    Return {| fn := "/ro/duecredit.p";
              _outputs := [PickleOutput (Some "/ro/duecredit.p");
                           TextOutput sys_stdout] |} ∧
  __del__ sink_dump [PickleOutput (Some "/ro/duecredit.p"); TextOutput sys_stdout]
    ro_sinks = (ro_sinks, Raise (IOError "/ro/duecredit.p")) ∧
  attempted sink_dump
    [PickleOutput (Some "/ro/duecredit.p"); TextOutput sys_stdout] ro_sinks =
    [PickleOutput (Some "/ro/duecredit.p")] ∧
  stdout (__del__ sink_dump [TextOutput sys_stdout] ro_sinks).1 = [with_paper] ∧
  stdout (__del__ sink_dump
            [PickleOutput (Some "/ro/duecredit.p"); TextOutput sys_stdout]
            ro_sinks).1 = [].
Proof.
  repeat split; by vm_compute.
Qed.

(** * Further properties of the collector *)

(** ** The three ways a call of [cite] can go *)

Lemma cite_cases a u lv w :
  (resolve_entry a w = None ∧ ∃ x, cite a u lv w = (w, Raise x)) ∨
  (∃ e, resolve_entry a w = Some e ∧ citations w !! get_key e = None ∧
        cite a u lv w =
          (created (get_key e) (Citation__init__ e u lv) (registered a w),
           Return (length (heap w)))) ∨
  (∃ e l, resolve_entry a w = Some e ∧ citations w !! get_key e = Some l ∧
          cite a u lv w = (set_heap (alter bump l) (registered a w), Return l)).
Proof.
  destruct (resolve_entry a w) as [e |] eqn:Ha.
  - destruct (citations w !! get_key e) as [l |] eqn:Hc.
    + right. right. exists e, l. eauto using cite_existing.
    + right. left. exists e. eauto using cite_fresh.
  - left. split; [done |]. by apply cite_unresolved.
Qed.

(** X1. [cite] returns exactly when its first argument is an entry
    instance or a string that is a key of the entry dictionary.  Otherwise it
    raises and the state is the one before the call. *)
Theorem cite_returns_iff_resolves (a u lv : pyval) (w : World) :
  ((∃ l, eval (cite a u lv) w = Return l) ↔ is_Some (resolve_entry a w)) ∧
  (∀ x, eval (cite a u lv) w = Raise x → exec (cite a u lv) w = w).
Proof.
  unfold eval, exec.
  destruct (cite_cases a u lv w)
    as [[Ha [x ->]] | [(e & Ha & _ & ->) | (e & l & Ha & _ & ->)]];
    rewrite Ha; simpl.
  - split; [| done]. split; [by intros [l ?] | by intros [? ?]].
  - split; [| done]. split; eauto.
  - split; [| done]. split; eauto.
Qed.

(** X2. What [cite] raises: a list as first argument is a [TypeError]
    (it cannot be hashed); [None], an integer or an absent string is a
    [KeyError] carrying the argument. *)
Theorem cite_raises_by_kind (a u lv : pyval) (w : World) :
  resolve_entry a w = None →
  cite a u lv w =
    (w, Raise (match a with
               | PList _ => TypeError "unhashable type: 'list'"
               | _ => KeyError a
               end)).
Proof.
  intros Ha. unfold cite.
  destruct a as [| s | n | e0 | l]; simpl in Ha; try done;
    apply bind_Raise; try done.
  unfold getitem_entries. by rewrite Ha.
Qed.

Lemma cite_raises_by_kind_witness :
  resolve_entry (PList [PStr "K1"]) with_paper = None ∧
  cite (PList [PStr "K1"]) PNone PNone with_paper =
    (with_paper, Raise (TypeError "unhashable type: 'list'")).
Proof.
  assert (H : resolve_entry (PList [PStr "K1"]) with_paper = None) by reflexivity.
  split; [exact H |].
  exact (cite_raises_by_kind (PList [PStr "K1"]) PNone PNone with_paper H).
Defined.

(** X3. [cite] with an entry instance always returns, whatever the state,
    and leaves that instance registered under its key, with a citation under
    that key. *)
Theorem cite_instance_always_returns (e : DueCreditEntry) (u lv : pyval)
    (w : World) :
  ∃ l, eval (cite (PEntry e) u lv) w = Return l ∧
       _entries (exec (cite (PEntry e) u lv) w) !! get_key e = Some e ∧
       citations (exec (cite (PEntry e) u lv) w) !! get_key e = Some l.
Proof.
  unfold eval, exec.
  destruct (cite_cases (PEntry e) u lv w)
    as [[Ha _] | [(e' & Ha & _ & ->) | (e' & l & Ha & Hc & ->)]];
    simpl in Ha; [done | |]; injection Ha as <-; simpl.
  - exists (length (heap w)). by rewrite !lookup_insert_eq.
  - exists l. by rewrite lookup_insert_eq.
Qed.

(** X4. When a citation already exists for the key, the [use] and [level]
    given to [cite] play no part: two calls that differ only in them leave
    the same state and return the same citation. *)
Theorem cite_existing_ignores_use_level (a u lv u' lv' : pyval) (w : World)
    (k : string) :
  resolve a w = Some k →
  is_Some (citations w !! k) →
  cite a u lv w = cite a u' lv' w.
Proof.
  intros Ha [l Hl].
  destruct (proj1 (resolve_resolve_entry a w k) Ha) as (e & He & <-).
  by rewrite (cite_existing a u lv w e l He Hl),
             (cite_existing a u' lv' w e l He Hl).
Qed.

Lemma cite_existing_ignores_use_level_witness :
  let w := exec (cite (PStr "K1") (PStr "first") PNone) with_paper in
  resolve (PStr "K1") w = Some "K1" ∧
  is_Some (citations w !! "K1") ∧
  cite (PStr "K1") (PStr "second") (PStr "elsewhere") w =
    cite (PStr "K1") PNone PNone w.
Proof.
  set (w := exec (cite (PStr "K1") (PStr "first") PNone) with_paper).
  assert (H1 : resolve (PStr "K1") w = Some "K1") by (by vm_compute).
  assert (H2 : is_Some (citations w !! "K1")) by (exists 0%nat; by vm_compute).
  simpl. split; [exact H1 |]. split; [exact H2 |].
  exact (cite_existing_ignores_use_level (PStr "K1") (PStr "second")
           (PStr "elsewhere") PNone PNone w "K1" H1 H2).
Defined.

(** X5. [cite] with an entry instance is [add] of the instance followed
    by [cite] with its key. *)
Theorem cite_instance_is_add_then_cite_key (e : DueCreditEntry) (u lv : pyval)
    (w : World) :
  cite (PEntry e) u lv w = (add (PEntry e) ;; cite (PStr (get_key e)) u lv) w.
Proof.
  erewrite (bind_Return (add (PEntry e))) by apply add_PEntry.
  set (w1 := set_entries (λ d, <[get_key e := e]> d) w).
  assert (He1 : resolve_entry (PStr (get_key e)) w1 = Some e)
    by (simpl; by rewrite lookup_insert_eq).
  assert (He : resolve_entry (PEntry e) w = Some e) by done.
  destruct (citations w !! get_key e) as [l |] eqn:Hc.
  - rewrite (cite_existing _ u lv w e l He Hc).
    by rewrite (cite_existing _ u lv w1 e l He1 Hc).
  - rewrite (cite_fresh _ u lv w e He Hc).
    by rewrite (cite_fresh _ u lv w1 e He1 Hc).
Qed.

(** X6. In a collector whose entries sit under their own keys, citing by
    a registered key and citing by the entry instance stored under it are the
    same call. *)
Theorem cite_key_is_cite_stored_instance (k : string) (e : DueCreditEntry)
    (u lv : pyval) (w : World) :
  own_key w →
  _entries w !! k = Some e →
  cite (PStr k) u lv w = cite (PEntry e) u lv w.
Proof.
  intros Hown Hk. pose proof (Hown k e Hk) as <-.
  assert (Hreg : registered (PEntry e) w = w).
  { destruct w as [d c h g]. unfold registered, set_entries. simpl in *.
    by rewrite insert_id. }
  assert (He1 : resolve_entry (PStr (get_key e)) w = Some e) by done.
  assert (He2 : resolve_entry (PEntry e) w = Some e) by done.
  destruct (citations w !! get_key e) as [l |] eqn:Hc.
  - rewrite (cite_existing _ u lv w e l He1 Hc).
    by rewrite (cite_existing _ u lv w e l He2 Hc), Hreg.
  - rewrite (cite_fresh _ u lv w e He1 Hc).
    by rewrite (cite_fresh _ u lv w e He2 Hc), Hreg.
Qed.

Lemma cite_key_is_cite_stored_instance_witness :
  own_key with_paper ∧ _entries with_paper !! "K1" = Some paper ∧
  cite (PStr "K1") PNone PNone with_paper =
    cite (PEntry paper) PNone PNone with_paper.
Proof.
  assert (H : _entries with_paper !! "K1" = Some paper) by (by vm_compute).
  split; [exact own_key_with_paper |]. split; [exact H |].
  exact (cite_key_is_cite_stored_instance "K1" paper PNone PNone with_paper
           own_key_with_paper H).
Defined.

(** ** What the methods keep *)

Lemma consistent_store_ok w : consistent w → store_ok w.
Proof.
  intros (_ & _ & Hobj & _) k l Hk.
  destruct (Hobj k l Hk) as (c & Hc & _). by eapply lookup_lt_Some.
Qed.

Lemma load_cases src w :
  load src w = (w, Raise (ValueError "Must be a string")) ∨
  load src w = (w, Raise (NotImplementedError "Format not yet supported")) ∨
  ∃ s, src = PStr s ∧ endswith s ".bib" = true ∧
       load src w = (set_lgr (λ l, l ++ ["Loading " +:+ s]) w, Return tt).
Proof.
  destruct src as [| s | n | e | l]; simpl; try (by left).
  destruct (endswith s ".bib") eqn:He.
  - right. right. by exists s.
  - right. by left.
Qed.

Lemma consistent_cite a u lv w : consistent w → consistent (exec (cite a u lv) w).
Proof.
  intros Hw. pose proof (consistent_store_ok w Hw) as Hok.
  destruct Hw as (Hown & Hb & Hobj & Hinj).
  destruct (cite_keeps a u lv w (conj Hown Hb)) as [Hown' Hb'].
  split; [done |]. split; [done |]. clear Hown' Hb'. unfold exec.
  destruct (cite_cases a u lv w)
    as [[_ [x ->]] | [(e & Ha & Hc & ->) | (e & l & Ha & Hc & ->)]]; simpl.
  - by split.
  - rewrite citations_registered, heap_registered. split.
    + intros k' l'. destruct (decide (get_key e = k')) as [<- | Hne].
      * rewrite lookup_insert_eq. intros [= <-].
        rewrite lookup_app_r, Nat.sub_diag by lia. simpl.
        exists (bump (Citation__init__ e u lv)). by repeat split.
      * rewrite lookup_insert_ne by done. intros Hk'.
        destruct (Hobj k' l' Hk') as (c & Hl' & Hkey & Hcount).
        exists c. rewrite lookup_app_l by (by eapply lookup_lt_Some). done.
    + intros k1 k2 l.
      destruct (decide (get_key e = k1)) as [<- | H1];
        destruct (decide (get_key e = k2)) as [<- | H2]; [done | | |].
      * rewrite lookup_insert_eq, lookup_insert_ne by done.
        intros [= <-] Hl%Hok. lia.
      * rewrite lookup_insert_eq, lookup_insert_ne by done.
        intros Hl%Hok [= <-]. lia.
      * rewrite !lookup_insert_ne by done. apply Hinj.
  - rewrite citations_registered, heap_registered. split; [| done].
    intros k' l' Hk'. destruct (Hobj k' l' Hk') as (c & Hl' & Hkey & Hcount).
    destruct (decide (l = l')) as [<- | Hne].
    + exists (bump c). rewrite list_lookup_alter_eq, Hl'. simpl.
      repeat split; [done | lia].
    + exists c. by rewrite list_lookup_alter_ne.
Qed.

Lemma consistent_add v w : consistent w → consistent (exec (add v) w).
Proof.
  intros (Hown & Hb & Hobj & Hinj).
  destruct (add_keeps v w (conj Hown Hb)) as [Hown' Hb'].
  destruct (add_frames v w) as (Hc & Hh & _).
  split; [done |]. split; [done |]. rewrite Hc, Hh. by split.
Qed.

Lemma consistent_load src w : consistent w → consistent (exec (load src) w).
Proof.
  intros Hw. unfold exec.
  destruct (load_cases src w) as [-> | [-> | (s & _ & _ & ->)]]; done.
Qed.

Lemma consistent_step o w : consistent w → consistent (step o w).
Proof.
  destruct o; simpl; auto using consistent_add, consistent_cite, consistent_load.
Qed.

Lemma consistent_empty : consistent empty_collector.
Proof.
  split; [| split; [| split]].
  - intros k e. unfold empty_collector. simpl. by rewrite lookup_empty.
  - unfold backed, empty_collector. simpl. by rewrite dom_empty_L.
  - intros k l. unfold empty_collector. simpl. by rewrite lookup_empty.
  - intros k1 k2 l. unfold empty_collector. simpl. by rewrite lookup_empty.
Qed.

Lemma consistent_steps ops w : consistent w → consistent (steps ops w).
Proof.
  revert w. induction ops as [| o ops IH]; intros w Hw; [done |].
  simpl. apply IH. by apply consistent_step.
Qed.

(** X7. A collector made with no arguments is consistent, and any run of
    calls of [add], [cite] and [load], returning or raising, keeps a
    consistent collector consistent: entries under their own keys, every
    citation backed by an entry, filed under the key of the entry it was built
    on, cited at least once, and the citation of one key only. *)
Theorem methods_keep_consistent (ops : list op) (w : World) :
  consistent empty_collector ∧
  (consistent w → consistent (steps ops w)).
Proof.
  split.
  - exact consistent_empty.
  - apply consistent_steps.
Qed.

Lemma methods_keep_consistent_witness :
  consistent
    (steps [CallAdd (PList [PEntry paper; PStr "oops"]);
            CallCite (PStr "K1") PNone PNone;
            CallCite (PEntry paper') (PStr "u") PNone;
            CallLoad (PInt 3)] empty_collector).
Proof.
  destruct (methods_keep_consistent
              [CallAdd (PList [PEntry paper; PStr "oops"]);
               CallCite (PStr "K1") PNone PNone;
               CallCite (PEntry paper') (PStr "u") PNone;
               CallLoad (PInt 3)] empty_collector) as [H0 H].
  exact (H H0).
Defined.

Lemma cite_other_count a u lv w k' :
  consistent w →
  resolve a w ≠ Some k' →
  count_at k' (exec (cite a u lv) w) = count_at k' w.
Proof.
  intros Hw Hne. pose proof (consistent_store_ok w Hw) as Hok.
  destruct Hw as (_ & _ & _ & Hinj). unfold exec.
  destruct (cite_cases a u lv w)
    as [[_ [x ->]] | [(e & Ha & Hc & ->) | (e & l & Ha & Hc & ->)]];
    simpl; [done | |].
  - assert (get_key e ≠ k').
    { intros <-. apply Hne, resolve_resolve_entry. eauto. }
    unfold count_at. simpl.
    rewrite citations_registered, heap_registered, lookup_insert_ne by done.
    destruct (citations w !! k') as [l' |] eqn:Hk'; [| done].
    by rewrite lookup_app_l by (by eapply Hok).
  - assert (get_key e ≠ k').
    { intros <-. apply Hne, resolve_resolve_entry. eauto. }
    unfold count_at. simpl. rewrite citations_registered, heap_registered.
    destruct (citations w !! k') as [l' |] eqn:Hk'; [| done].
    rewrite list_lookup_alter_ne; [done |].
    intros <-. by specialize (Hinj _ _ _ Hc Hk').
Qed.

(** X8. In a consistent collector, a call of [cite] changes the count of
    the key it works on only: the count under every other key is what it
    was, and so is the citation object under it. *)
Theorem cite_leaves_other_counts (a u lv : pyval) (w : World) (k' : string) :
  consistent w →
  resolve a w ≠ Some k' →
  count_at k' (exec (cite a u lv) w) = count_at k' w ∧
  citation_at k' (exec (cite a u lv) w) = citation_at k' w.
Proof.
  intros Hw Hne. split; [by apply cite_other_count |].
  pose proof (consistent_store_ok w Hw) as Hok.
  destruct Hw as (_ & _ & _ & Hinj). unfold exec, citation_at.
  destruct (cite_cases a u lv w)
    as [[_ [x ->]] | [(e & Ha & Hc & ->) | (e & l & Ha & Hc & ->)]];
    simpl; [done | |].
  - assert (get_key e ≠ k').
    { intros <-. apply Hne, resolve_resolve_entry. eauto. }
    rewrite citations_registered, heap_registered, lookup_insert_ne by done.
    destruct (citations w !! k') as [l' |] eqn:Hk'; [| done]. simpl.
    by rewrite lookup_app_l by (by eapply Hok).
  - assert (get_key e ≠ k').
    { intros <-. apply Hne, resolve_resolve_entry. eauto. }
    rewrite citations_registered, heap_registered.
    destruct (citations w !! k') as [l' |] eqn:Hk'; [| done]. simpl.
    rewrite list_lookup_alter_ne; [done |].
    intros <-. by specialize (Hinj _ _ _ Hc Hk').
Qed.

Lemma cite_leaves_other_counts_witness :
  let w := steps [CallCite (PEntry paper) PNone PNone;
                  CallCite (PEntry misfiled) PNone PNone] empty_collector in
  consistent w ∧ resolve (PStr "K1") w ≠ Some "b" ∧
  count_at "b" (exec (cite (PStr "K1") PNone PNone) w) = count_at "b" w.
Proof.
  set (ops := [CallCite (PEntry paper) PNone PNone;
               CallCite (PEntry misfiled) PNone PNone]).
  assert (Hw : consistent (steps ops empty_collector))
    by apply consistent_steps, consistent_empty.
  assert (Hne : resolve (PStr "K1") (steps ops empty_collector) ≠ Some "b")
    by (by vm_compute).
  simpl. split; [exact Hw |]. split; [exact Hne |].
  exact (proj1 (cite_leaves_other_counts (PStr "K1") PNone PNone _ "b" Hw Hne)).
Defined.

(** X9. No call of [add], [cite] or [load] takes anything away: a
    registered key stays registered, the citation of a key stays the same
    object, and an object of the store keeps its entry, use and level, its
    count staying or growing by one. *)
Theorem methods_never_remove (o : op) (w : World) :
  (∀ k, is_Some (_entries w !! k) → is_Some (_entries (step o w) !! k)) ∧
  (∀ k l, citations w !! k = Some l → citations (step o w) !! k = Some l) ∧
  (∀ l c, heap w !! l = Some c →
          ∃ c', heap (step o w) !! l = Some c' ∧
                _entry c' = _entry c ∧ _use c' = _use c ∧ _level c' = _level c ∧
                count c ≤ count c' ≤ count c + 1).
Proof.
  assert (Hsame : ∀ l c, heap w !! l = Some c →
            ∃ c', heap w !! l = Some c' ∧
                  _entry c' = _entry c ∧ _use c' = _use c ∧ _level c' = _level c ∧
                  count c ≤ count c' ≤ count c + 1).
  { intros l c Hl. exists c. repeat split; [done | lia | lia]. }
  destruct o as [v | a u lv | src]; simpl.
  - destruct (add_frames v w) as (Hc & Hh & _ & Hdom & _).
    rewrite Hc, Hh. split; [| by split].
    intros k Hk%elem_of_dom. apply elem_of_dom. by apply Hdom.
  - unfold exec.
    destruct (cite_cases a u lv w)
      as [[_ [x ->]] | [(e & Ha & Hc & ->) | (e & l0 & Ha & Hc & ->)]]; simpl.
    + by repeat split.
    + rewrite citations_registered, heap_registered. split; [| split].
      * intros k Hk. destruct a; try done. simpl.
        destruct (decide (get_key e0 = k)) as [<- | Hne].
        -- rewrite lookup_insert_eq. eauto.
        -- by rewrite lookup_insert_ne.
      * intros k l Hk. rewrite lookup_insert_ne; [done |]. congruence.
      * intros l c Hl. rewrite lookup_app_l by (by eapply lookup_lt_Some).
        by apply Hsame.
    + rewrite citations_registered, heap_registered. split; [| split; [done |]].
      * intros k Hk. destruct a; try done. simpl.
        destruct (decide (get_key e0 = k)) as [<- | Hne].
        -- rewrite lookup_insert_eq. eauto.
        -- by rewrite lookup_insert_ne.
      * intros l c Hl. destruct (decide (l0 = l)) as [<- | Hne].
        -- exists (bump c). rewrite list_lookup_alter_eq, Hl. simpl.
           repeat split; lia.
        -- rewrite list_lookup_alter_ne by done. by apply Hsame.
  - unfold exec.
    destruct (load_cases src w) as [-> | [-> | (s & _ & _ & ->)]];
      by repeat split.
Qed.

(** ** More on [add] *)

Lemma set_entries_id w : set_entries (λ d, d) w = w.
Proof. by destruct w. Qed.

Lemma walk_PList l : walk (PList l) = walk_each l.
Proof.
  simpl. induction l as [| v l IH]; simpl; [done |]. by rewrite IH.
Qed.

Lemma register_all_app es es' d :
  register_all (es ++ es') d = register_all es' (register_all es d).
Proof. apply foldl_app. Qed.

Lemma add_walks v :
  ∀ w, add v w =
       (set_entries (register_all (walk v).1) w,
        if (walk v).2 then Return tt else Raise (AttributeError "get_key")).
Proof.
  induction v as [| s | n | e | l IH] using pyval_ind; intros w;
    try (simpl; by rewrite set_entries_id).
  - reflexivity.
  - rewrite add_PList, walk_PList. revert w.
    induction IH as [| v l Hv _ IHl]; intros w.
    + simpl. by rewrite set_entries_id.
    + rewrite add_each_cons, Hv. simpl.
      destruct (walk v) as [es [|]]; simpl; [| done].
      rewrite IHl. destruct (walk_each l) as [es' ok']. simpl.
      unfold set_entries. simpl. by rewrite register_all_app.
Qed.

Lemma last_cons_cons {A} (x y : A) (l : list A) : last (x :: y :: l) = last (y :: l).
Proof. reflexivity. Qed.

Lemma register_all_lookup es d k :
  register_all es d !! k =
  match last_with_key k es with
  | Some e => Some e
  | None => d !! k
  end.
Proof.
  revert d. induction es as [| e es IH]; intros d; [done |].
  change (register_all (e :: es) d)
    with (register_all es (<[get_key e := e]> d)).
  rewrite IH. unfold last_with_key.
  destruct (decide (get_key e = k)) as [Hk | Hk].
  - rewrite filter_cons_True by done.
    destruct (filter (λ e0, get_key e0 = k) es) as [| e' l'] eqn:Hf.
    + simpl. by rewrite Hk, lookup_insert_eq.
    + rewrite last_cons_cons.
      destruct (last (e' :: l')) eqn:Hl; [done |]. by apply last_None in Hl.
  - rewrite filter_cons_False by done.
    destruct (last _); [done |]. by rewrite lookup_insert_ne.
Qed.

(** X10. [add] registers, in order, the entries it meets walking its
    argument from left to right through nested lists, up to the first
    element that is neither an entry nor a list; there it raises
    [AttributeError], the entries met before staying registered.  When there
    is no such element it returns [None]. *)
Theorem add_registers_walk (v : pyval) (w : World) :
  add v w =
    (set_entries (register_all (walk v).1) w,
     if (walk v).2 then Return tt else Raise (AttributeError "get_key")).
Proof.
  destruct (walk v) as [es ok] eqn:Hwalk.
  rewrite add_walks, Hwalk. reflexivity.
Qed.

(** X11. After [add], whether it returned or raised, the entry under a
    key is the last entry of that key that [add] met, and the entry that was
    there before when it met none. *)
Theorem add_latest_entry_wins (v : pyval) (w : World) (k : string) :
  _entries (exec (add v) w) !! k =
  match last_with_key k (walk v).1 with
  | Some e => Some e
  | None => _entries w !! k
  end.
Proof.
  unfold exec. rewrite add_walks. simpl. apply register_all_lookup.
Qed.

(** X12. [add] is idempotent: the same call made again leaves the state
    it finds and ends the same way. *)
Theorem add_idempotent (v : pyval) (w : World) :
  add v (exec (add v) w) = (exec (add v) w, eval (add v) w).
Proof.
  unfold exec, eval. rewrite !add_walks. simpl. f_equal.
  destruct w as [d c h g]. unfold set_entries. simpl. f_equal.
  apply map_eq. intros k. rewrite !register_all_lookup.
  by destruct (last_with_key k (walk v).1).
Qed.

(** X13. [add] of a list that is two lists joined is [add] of the first
    followed by [add] of the second; in particular [add] of the empty list
    does nothing. *)
Theorem add_list_app (l1 l2 : list pyval) (w : World) :
  add (PList (l1 ++ l2)) w = (add (PList l1) ;; add (PList l2)) w ∧
  add (PList []) w = (w, Return tt).
Proof.
  split; [| done]. rewrite !add_PList. revert w.
  induction l1 as [| v l1 IH]; intros w; [done |].
  rewrite <- app_comm_cons, add_each_cons.
  unfold mbind, M_bind, bind. rewrite add_each_cons.
  destruct (add v w) as [w1 [[] | x]]; [| done].
  rewrite IH. reflexivity.
Qed.

(** ** More on [load] *)

(** X14. [load] registers nothing: whatever its argument, the entry
    dictionary, the citation dictionary and the citation objects are left as
    they were.  A call that returns has handed one record, naming the file,
    to the logger; a call that raises has changed nothing at all. *)
Theorem load_registers_nothing (src : pyval) (w : World) :
  _entries (exec (load src) w) = _entries w ∧
  citations (exec (load src) w) = citations w ∧
  heap (exec (load src) w) = heap w ∧
  (∀ s, src = PStr s → eval (load src) w = Return tt →
        lgr (exec (load src) w) = lgr w ++ ["Loading " +:+ s]) ∧
  (∀ x, eval (load src) w = Raise x → exec (load src) w = w).
Proof.
  unfold exec, eval.
  destruct (load_cases src w) as [H | [H | (s & -> & _ & H)]]; rewrite H; simpl.
  - by repeat split.
  - by repeat split.
  - repeat split; try done. by intros s' [= <-].
Qed.

(** ** More on [dcite] *)

Lemma bind_param_TypeError args0 kwargs0 i name default0 x :
  bind_param args0 kwargs0 i name default0 = Raise x → ∃ msg, x = TypeError msg.
Proof.
  unfold bind_param.
  destruct (args0 !! i), (kwargs0 !! name), default0; intros [= <-]; eauto.
Qed.

Lemma bind_cite_TypeError args0 kwargs0 x :
  bind_cite args0 kwargs0 = Raise x → ∃ msg, x = TypeError msg.
Proof.
  unfold bind_cite.
  destruct (decide (3 < length args0)%nat); [intros [= <-]; eauto |].
  destruct (decide (dom kwargs0 ⊆ _)); [| intros [= <-]; eauto].
  destruct (bind_param args0 kwargs0 0 "entry" None) as [e | x1] eqn:H1;
    destruct (bind_param args0 kwargs0 1 "use" (Some PNone)) as [u | x2] eqn:H2;
    destruct (bind_param args0 kwargs0 2 "level" (Some PNone)) as [l | x3] eqn:H3;
    intros [= <-]; eauto using bind_param_TypeError.
Qed.

Lemma bind_cite_level_twice args0 kwargs0 :
  (3 ≤ length args0)%nat → is_Some (kwargs0 !! "level") →
  ∃ x, bind_cite args0 kwargs0 = Raise x.
Proof.
  intros Hlen [v Hv]. unfold bind_cite.
  destruct (decide (3 < length args0)%nat); [eauto |].
  destruct (decide (dom kwargs0 ⊆ _)); [| eauto].
  assert (H3 : ∃ x, bind_param args0 kwargs0 2 "level" (Some PNone) = Raise x).
  { unfold bind_param. rewrite Hv.
    destruct (lookup_lt_is_Some_2 args0 2%nat ltac:(lia)) as [a ->]. eauto. }
  destruct H3 as [x3 ->].
  destruct (bind_param args0 kwargs0 0 "entry" None);
    destruct (bind_param args0 kwargs0 1 "use" (Some PNone)); eauto.
Qed.

(** X15. The level is settled by the first decoration.  A level given by
    keyword is left alone by [func_wrapper]; and when none was given, using
    the decorator on a second function keeps the level deduced from the
    first, so that the second wrapper cites with the first function's name. *)
Theorem func_wrapper_level_set_once (d : Decorator) (f g : PyFunc) :
  (is_Some (kwargs d !! "level") → (func_wrapper d f).1 = d) ∧
  ("level" ∉ dom (kwargs d) →
     (func_wrapper (func_wrapper d f).1 g).1 = (func_wrapper d f).1 ∧
     kwargs (func_wrapper (func_wrapper d f).1 g).1 !! "level" =
       Some (deduced_level f) ∧
     ∀ fargs fkwargs,
       __call__ (func_wrapper (func_wrapper d f).1 g).2 fargs fkwargs =
       (cite_call (args d) (<["level" := deduced_level f]> (kwargs d)) ;;
        __call__ g fargs fkwargs)).
Proof.
  split.
  - intros Hl%elem_of_dom. unfold func_wrapper. simpl.
    rewrite decide_True by done. by destruct d.
  - intros Hno. unfold func_wrapper. simpl.
    rewrite (decide_False (P := "level" ∈ dom (kwargs d))) by done.
    rewrite decide_True by (rewrite dom_insert_L; set_solver).
    by rewrite lookup_insert_eq.
Qed.

Lemma func_wrapper_level_set_once_witness :
  kwargs (func_wrapper (func_wrapper (dcite [PStr "K1"] ∅) f_func).1 g_func).1
    !! "level" = Some (PStr "func m.f").
Proof.
  destruct (func_wrapper_level_set_once (dcite [PStr "K1"] ∅) f_func g_func)
    as [_ H].
  destruct H as (_ & H & _).
  - simpl. rewrite dom_empty_L. apply not_elem_of_empty.
  - exact H.
Defined.

(** X16. A level captured as third positional argument, with no level
    keyword, makes every call of the wrapper raise [TypeError]: the keyword
    [func_wrapper] adds collides with it.  The wrapped function is not run and
    the collector is left as it was. *)
Theorem dcite_positional_level_raises (d : Decorator) (func : PyFunc)
    (fargs : list pyval) (fkwargs : gmap string pyval) (w : World) :
  (3 ≤ length (args d))%nat →
  "level" ∉ dom (kwargs d) →
  ∃ msg, __call__ (func_wrapper d func).2 fargs fkwargs w =
           (w, Raise (TypeError msg)).
Proof.
  intros Hlen Hno. simpl. rewrite decide_False by done.
  destruct (bind_cite_level_twice (args d)
              (<["level" := deduced_level func]> (kwargs d)) Hlen) as [x Hx].
  { rewrite lookup_insert_eq. eauto. }
  destruct (bind_cite_TypeError _ _ _ Hx) as [msg ->].
  exists msg. unfold cite_wrapper. apply bind_Raise.
  unfold cite_call. by rewrite Hx.
Qed.

Lemma dcite_positional_level_raises_witness :
  ∃ msg, __call__ (func_wrapper (dcite [PStr "K1"; PStr "why"; PStr "where"] ∅)
                     f_func).2 [] ∅ with_paper =
           (with_paper, Raise (TypeError msg)).
Proof.
  apply (dcite_positional_level_raises
           (dcite [PStr "K1"; PStr "why"; PStr "where"] ∅) f_func [] ∅ with_paper).
  - simpl. lia.
  - simpl. rewrite dom_empty_L. apply not_elem_of_empty.
Defined.

Lemma resolve_after_cite a u lv w k :
  resolve a w = Some k → resolve a (exec (cite a u lv) w) = Some k.
Proof.
  destruct a as [| s | n | e0 | l]; try done. simpl. intros Hs. unfold exec.
  destruct (cite_cases (PStr s) u lv w)
    as [[_ [x ->]] | [(e & _ & _ & ->) | (e & l & _ & _ & ->)]]; done.
Qed.

(** X17. Calls of a wrapper are counted one by one: when the captured
    arguments bind and resolve to a key, and the wrapped function returns
    without touching the collector, [n] calls of the wrapper in a row all
    return and leave the count under that key higher by [n]. *)
Theorem wrapper_calls_are_counted (n : nat) (d : Decorator) (func : PyFunc)
    (fargs : list pyval) (fkwargs : gmap string pyval)
    (a u lv : pyval) (k : string) (w : World) :
  store_ok w →
  bind_cite (args (func_wrapper d func).1) (kwargs (func_wrapper d func).1)
    = Return (a, u, lv) →
  resolve a w = Some k →
  (∀ w0, ∃ r, __call__ func fargs fkwargs w0 = (w0, Return r)) →
  eval (call_n n (func_wrapper d func).2 fargs fkwargs) w = Return tt ∧
  count_at k (exec (call_n n (func_wrapper d func).2 fargs fkwargs) w)
    = count_at k w + Z.of_nat n.
Proof.
  intros Hok Hbind Ha Hpure. revert w Hok Ha.
  induction n as [| n IH]; intros w Hok Ha.
  - unfold eval, exec. simpl. split; [done | lia].
  - destruct (cite_step k a u lv w Hok Ha)
      as (l & w1 & Hcite & Hok1 & _ & Hcount & _).
    assert (Ha1 : resolve a w1 = Some k).
    { pose proof (resolve_after_cite a u lv w k Ha) as H.
      unfold exec in H. by rewrite Hcite in H. }
    destruct (Hpure w1) as [r Hr].
    assert (Hcall : __call__ (func_wrapper d func).2 fargs fkwargs w
                    = (w1, Return r)).
    { simpl in *. unfold cite_wrapper.
      erewrite bind_Return; [exact Hr |].
      unfold cite_call. by rewrite Hbind. }
    destruct (IH w1 Hok1 Ha1) as [Hev Hcnt].
    unfold eval, exec in *.
    change (call_n (S n) (func_wrapper d func).2 fargs fkwargs w)
      with ((__call__ (func_wrapper d func).2 fargs fkwargs ≫=
             λ _, call_n n (func_wrapper d func).2 fargs fkwargs) w).
    erewrite bind_Return by exact Hcall.
    split; [exact Hev |]. rewrite Hcnt, Hcount. lia.
Qed.

Lemma wrapper_calls_are_counted_witness :
  count_at "K1"
    (exec (call_n 5 (func_wrapper (dcite [PStr "K1"] ∅) f_func).2 [] ∅)
       with_paper) = count_at "K1" with_paper + 5.
Proof.
  refine (proj2 (wrapper_calls_are_counted 5 (dcite [PStr "K1"] ∅) f_func [] ∅
                   (PStr "K1") PNone (PStr "func m.f") "K1" with_paper _ _ _ _)).
  - by apply store_ok_no_citations.
  - by vm_compute.
  - by vm_compute.
  - intros w0. by exists (PInt 42).
Defined.

Lemma wrapper_call d func fargs fkwargs w :
  __call__ (func_wrapper d func).2 fargs fkwargs w =
  (cite_call (args d) (kwargs (func_wrapper d func).1) ≫=
   λ _, __call__ func fargs fkwargs) w.
Proof. reflexivity. Qed.

Lemma resolve_after_cite_same_key a1 a2 u lv w k :
  resolve a1 w = Some k → resolve a2 w = Some k →
  resolve a1 (exec (cite a2 u lv) w) = Some k.
Proof.
  intros H1 H2. destruct a1 as [| s | n | e1 | l1]; try done.
  simpl in *. unfold exec.
  destruct (proj1 (resolve_resolve_entry a2 w k) H2) as (e & He & Hk).
  assert (Hreg : get_key <$> _entries (registered a2 w) !! s = Some k).
  { destruct a2 as [| s2 | n2 | e2 | l2]; try done. simpl in *.
    injection He as ->. destruct (decide (get_key e = s)) as [<- | Hne].
    - rewrite lookup_insert_eq. exact H2.
    - by rewrite lookup_insert_ne. }
  destruct (cite_cases a2 u lv w)
    as [[Hn _] | [(e' & _ & _ & ->) | (e' & l & _ & _ & ->)]];
    [congruence | done | done].
Qed.

(** X18. [wraps] hands the function's module and name on to the wrapper,
    so a second [dcite] put on top of a wrapper deduces its level from the
    function at the bottom.  When both decorators cite the same key and the
    function returns without touching the collector, one call of the outer
    wrapper returns the function's value and counts twice. *)
Theorem stacked_decorators_count_twice (d1 d2 : Decorator) (f : PyFunc)
    (fargs : list pyval) (fkwargs : gmap string pyval)
    (a1 u1 lv1 a2 u2 lv2 r : pyval) (k : string) (w : World) :
  let inner := (func_wrapper d1 f).2 in
  let outer := (func_wrapper d2 inner).2 in
  store_ok w →
  bind_cite (args d1) (kwargs (func_wrapper d1 f).1) = Return (a1, u1, lv1) →
  bind_cite (args d2) (kwargs (func_wrapper d2 inner).1) = Return (a2, u2, lv2) →
  resolve a1 w = Some k →
  resolve a2 w = Some k →
  (∀ w0, __call__ f fargs fkwargs w0 = (w0, Return r)) →
  deduced_level inner = deduced_level f ∧
  ("level" ∉ dom (kwargs d2) → lv2 = deduced_level f) ∧
  eval (__call__ outer fargs fkwargs) w = Return r ∧
  count_at k (exec (__call__ outer fargs fkwargs) w) = count_at k w + 2.
Proof.
  intros inner outer Hok Hb1 Hb2 Ha1 Ha2 Hpure.
  split; [done |]. split.
  { intros Hno. eapply bind_cite_level; [exact Hb2 |].
    simpl. rewrite decide_False by done. by rewrite lookup_insert_eq. }
  destruct (cite_step k a2 u2 lv2 w Hok Ha2)
    as (l2 & w1 & Hc2 & Hok1 & _ & Hcount1 & _).
  assert (Ha1' : resolve a1 w1 = Some k).
  { pose proof (resolve_after_cite_same_key a1 a2 u2 lv2 w k Ha1 Ha2) as H.
    unfold exec in H. by rewrite Hc2 in H. }
  destruct (cite_step k a1 u1 lv1 w1 Hok1 Ha1')
    as (l1 & w2 & Hc1 & _ & _ & Hcount2 & _).
  assert (Hcall : __call__ outer fargs fkwargs w = (w2, Return r)).
  { subst outer inner. rewrite wrapper_call.
    erewrite bind_Return; [| unfold cite_call; rewrite Hb2; exact Hc2].
    rewrite wrapper_call.
    erewrite bind_Return; [| unfold cite_call; rewrite Hb1; exact Hc1].
    apply Hpure. }
  unfold eval, exec. rewrite Hcall. simpl. split; [done | lia].
Qed.

Lemma stacked_decorators_count_twice_witness :
  count_at "K1"
    (exec (__call__ (func_wrapper (dcite [PStr "K1"] ∅)
                       (func_wrapper (dcite [PStr "K1"] ∅) f_func).2).2 [] ∅)
       with_paper) = count_at "K1" with_paper + 2.
Proof.
  refine (proj2 (proj2 (proj2
    (stacked_decorators_count_twice (dcite [PStr "K1"] ∅) (dcite [PStr "K1"] ∅)
       f_func [] ∅ (PStr "K1") PNone (PStr "func m.f")
       (PStr "K1") PNone (PStr "func m.f") (PInt 42) "K1" with_paper
       _ _ _ _ _ _)))).
  - by apply store_ok_no_citations.
  - by vm_compute.
  - by vm_compute.
  - by vm_compute.
  - by vm_compute.
  - done.
Defined.

(** ** More on [CollectorGrave] *)

Lemma split_not_nil sep s : split sep s ≠ [].
Proof.
  destruct s as [| a s]; simpl; [done |].
  destruct (decide (a = sep)); [done |]. by destruct (split sep s).
Qed.

Lemma split_app sep s1 s2 :
  split sep (s1 +:+ String sep s2) = split sep s1 ++ split sep s2.
Proof.
  induction s1 as [| a s1 IH].
  - rewrite append_nil. simpl. by rewrite decide_True.
  - rewrite append_cons. simpl. rewrite IH.
    destruct (decide (a = sep)); [done |].
    pose proof (split_not_nil sep s1). by destruct (split sep s1).
Qed.

Lemma handlers_app lower strip fn0 l1 l2 :
  handlers lower strip fn0 (l1 ++ l2) =
  match handlers lower strip fn0 l1 with
  | Return os1 =>
      match handlers lower strip fn0 l2 with
      | Return os2 => Return (os1 ++ os2)
      | Raise e => Raise e
      end
  | Raise e => Raise e
  end.
Proof.
  induction l1 as [| t l1 IH]; simpl.
  - by destruct (handlers lower strip fn0 l2).
  - destruct (decide (t = "")); [done |].
    destruct (_get_output_handler (strip (lower t)) fn0); [| done].
    rewrite IH. destruct (handlers lower strip fn0 l1); [| done].
    by destruct (handlers lower strip fn0 l2).
Qed.

Lemma handlers_members lower strip fn0 types os :
  handlers lower strip fn0 types = Return os →
  Forall (λ o, o = TextOutput sys_stdout ∨ o = TextOutput sys_stderr ∨
               o = PickleOutput fn0) os ∧
  length os = length (filter (λ t, t ≠ "") types).
Proof.
  revert os. induction types as [| t types IH]; intros os; simpl.
  - by intros [= <-].
  - destruct (decide (t = "")) as [-> | Hne].
    + rewrite filter_cons_False by (by intros H). apply IH.
    + rewrite filter_cons_True by done.
      destruct (decide (recognized (strip (lower t)))) as [Hr | Hr].
      * rewrite (factory_recognized fn0 _ Hr).
        destruct (handlers lower strip fn0 types) as [os' |]; [| done].
        intros [= <-]. destruct (IH os' eq_refl) as [Hall Hlen].
        split; [| simpl; by rewrite Hlen].
        constructor; [| done]. unfold sink_of.
        repeat case_decide; auto.
      * by rewrite (factory_unrecognized fn0 _ Hr).
Qed.

(** X19. The path the pickle sink is given is the constructor's [fn] as
    passed, not the path the grave keeps: with [fn] left out (or empty) the
    grave's own [fn] is [.duecredit.p] while the sink is handed [None] (or the
    empty string).  There is one sink for each piece of the setting that is
    not empty, repeated pieces included. *)
Theorem grave_pickle_path_is_argument (lower strip : string → string)
    (environ : gmap string string) (fn0 : option string) (g : CollectorGrave) :
  CollectorGrave__init__ lower strip environ fn0 = Return g →
  (∀ p, PickleOutput p ∈ _outputs g → p = fn0) ∧
  fn g = or_str fn0 ".duecredit.p" ∧
  (fn0 = None ∨ fn0 = Some "" → fn g = ".duecredit.p") ∧
  length (_outputs g) =
    length (filter (λ t, t ≠ "")
              (split "," (default "stdout" (environ !! "DUECREDIT_OUTPUTS")))).
Proof.
  unfold CollectorGrave__init__.
  destruct (handlers lower strip fn0 _) as [os |] eqn:Hh; [| done].
  intros [= <-]. simpl.
  destruct (handlers_members _ _ _ _ _ Hh) as [Hall Hlen].
  split; [| split; [done | split; [| done]]].
  - intros p Hp. rewrite Forall_forall in Hall.
    destruct (Hall _ Hp) as [? | [? | [= ->]]]; done.
  - by intros [-> | ->].
Qed.

Lemma grave_pickle_path_is_argument_witness :
  ∃ g, CollectorGrave__init__ ascii_lower ascii_strip
         {["DUECREDIT_OUTPUTS" := "pickle,pickle"]} None = Return g ∧
       fn g = ".duecredit.p" ∧
       _outputs g = [PickleOutput None; PickleOutput None].
Proof.
  destruct (CollectorGrave__init__ ascii_lower ascii_strip
              {["DUECREDIT_OUTPUTS" := "pickle,pickle"]} None)
    as [g | x] eqn:Hg; [| by vm_compute in Hg].
  exists g. split; [done |].
  destruct (grave_pickle_path_is_argument _ _ _ None g Hg) as (_ & _ & Hfn & _).
  split; [apply Hfn; by left |].
  vm_compute in Hg. by injection Hg as <-.
Defined.

(** X20. Settings compose: the sinks of two settings joined by a comma
    are the sinks of the first followed by the sinks of the second, and the
    joined setting is refused as soon as one of the two is. *)
Theorem grave_settings_join (lower strip : string → string)
    (environ : gmap string string) (fn0 : option string) (s1 s2 : string) :
  let init s := CollectorGrave__init__ lower strip
                  (<["DUECREDIT_OUTPUTS" := s]> environ) fn0 in
  (∀ g1 g2, init s1 = Return g1 → init s2 = Return g2 →
            init (s1 +:+ "," +:+ s2) =
              Return {| fn := fn g1; _outputs := _outputs g1 ++ _outputs g2 |}) ∧
  (∀ x, init s1 = Raise x → init (s1 +:+ "," +:+ s2) = Raise x) ∧
  (∀ g1 x, init s1 = Return g1 → init s2 = Raise x →
           init (s1 +:+ "," +:+ s2) = Raise x).
Proof.
  intros init. subst init. unfold CollectorGrave__init__.
  rewrite !lookup_insert_eq. simpl.
  change ("," +:+ s2) with (String "," s2).
  rewrite split_app, handlers_app.
  destruct (handlers lower strip fn0 (split "," s1)) as [os1 | x1];
    destruct (handlers lower strip fn0 (split "," s2)) as [os2 | x2];
    repeat split; try done.
  by intros g1 g2 [= <-] [= <-].
Qed.

Lemma grave_settings_join_witness :
  CollectorGrave__init__ ascii_lower ascii_strip
    (<["DUECREDIT_OUTPUTS" := "stdout,stderr" +:+ "," +:+ "stdout"]> ∅) None =
  Return {| fn := ".duecredit.p";
            _outputs := [TextOutput sys_stdout; TextOutput sys_stderr;
                         TextOutput sys_stdout] |}.
Proof.
  destruct (grave_settings_join ascii_lower ascii_strip ∅ None
              "stdout,stderr" "stdout") as (H & _ & _).
  assert (H1 : CollectorGrave__init__ ascii_lower ascii_strip
                 (<["DUECREDIT_OUTPUTS" := "stdout,stderr"]> ∅) None =
               Return {| fn := ".duecredit.p";
                         _outputs := [TextOutput sys_stdout;
                                      TextOutput sys_stderr] |})
    by (by vm_compute).
  assert (H2 : CollectorGrave__init__ ascii_lower ascii_strip
                 (<["DUECREDIT_OUTPUTS" := "stdout"]> ∅) None =
               Return {| fn := ".duecredit.p";
                         _outputs := [TextOutput sys_stdout] |})
    by (by vm_compute).
  exact (H _ _ H1 H2).
Defined.

(** ** More on teardown *)

(** X21. Teardown of two lists of sinks joined is teardown of the first
    followed, when it returns, by teardown of the second in the state
    reached; when the first raises, that is the end. *)
Theorem del_app {S : Type} (dump : Output → S → S * outcome unit)
    (outputs1 outputs2 : list Output) (s : S) :
  __del__ dump (outputs1 ++ outputs2) s =
  match __del__ dump outputs1 s with
  | (s1, Return _) => __del__ dump outputs2 s1
  | (s1, Raise x) => (s1, Raise x)
  end.
Proof.
  revert s. induction outputs1 as [| o outputs1 IH]; intros s; simpl; [done |].
  destruct (dump o s) as [s' [[] | x]]; [apply IH | done].
Qed.

(** X22. Teardown exports the sinks in the order of the list, each at
    most once and none out of turn: the sinks attempted are a prefix of the
    list.  It returns exactly when every sink was attempted and every export
    returned; when it raises, the last sink attempted is the one whose export
    raised, and the state is the one that export left. *)
Theorem del_exports_a_prefix {S : Type} (dump : Output → S → S * outcome unit)
    (outputs : list Output) (s : S) :
  attempted dump outputs s `prefix_of` outputs ∧
  (∀ s', __del__ dump outputs s = (s', Return tt) →
         attempted dump outputs s = outputs) ∧
  (∀ s' x, __del__ dump outputs s = (s', Raise x) →
           ∃ before o s1,
             attempted dump outputs s = before ++ [o] ∧
             __del__ dump before s = (s1, Return tt) ∧
             dump o s1 = (s', Raise x)).
Proof.
  revert s. induction outputs as [| o outputs IH]; intros s; simpl.
  - split; [done |]. split; [done |]. by intros s' x.
  - destruct (dump o s) as [s1 [[] | y]] eqn:Hd.
    + destruct (IH s1) as (Hpre & Hret & Hraise). split; [| split].
      * by apply prefix_cons.
      * intros s' Hs'. by rewrite (Hret s' Hs').
      * intros s' x Hs'.
        destruct (Hraise s' x Hs') as (before & o' & s2 & -> & Hb & Ho).
        exists (o :: before), o', s2. simpl. by rewrite Hd.
    + split; [| split].
      * apply prefix_cons, prefix_nil.
      * by intros s'.
      * intros s' x [= <- <-]. by exists [], o, s.
Qed.

(** ** Text *)

Lemma step_keeps_objects o w l c :
  heap w !! l = Some c →
  ∃ c', heap (step o w) !! l = Some c' ∧
        _entry c' = _entry c ∧ _use c' = _use c ∧ _level c' = _level c.
Proof.
  intros Hl. destruct o as [v | a u lv | src]; simpl.
  - destruct (add_frames v w) as (_ & -> & _). eauto.
  - unfold exec.
    destruct (cite_cases a u lv w)
      as [[_ [x ->]] | [(e & Ha & Hc & ->) | (e & l0 & Ha & Hc & ->)]]; simpl.
    + eauto.
    + rewrite heap_registered, lookup_app_l by (by eapply lookup_lt_Some). eauto.
    + rewrite heap_registered. destruct (decide (l0 = l)) as [<- | Hne].
      * exists (bump c). by rewrite list_lookup_alter_eq, Hl.
      * rewrite list_lookup_alter_ne by done. eauto.
  - unfold exec.
    destruct (load_cases src w) as [-> | [-> | (s & _ & _ & ->)]]; eauto.
Qed.

(** X23. The representation of a citation is [Citation(...)] around
    the representation of its entry, followed by [use=...] and [level=...]
    for those of the two that are true values: a use or level that is [None]
    or empty is not shown, and the count never is.  So no call of [add],
    [cite] or [load] changes the representation of a citation object. *)
Theorem citation_repr_stable (repr : pyval → string) (o : op) (w : World)
    (l : loc) (c : Citation) :
  heap w !! l = Some c →
  Citation__repr__ repr c =
    "Citation" +:+ "(" +:+
      join ", " (repr (PEntry (_entry c)) ::
                 (if truthy (_use c) then ["use=" +:+ repr (_use c)] else []) ++
                 (if truthy (_level c) then ["level=" +:+ repr (_level c)] else []))
      +:+ ")" ∧
  ∃ c', heap (step o w) !! l = Some c' ∧
        Citation__repr__ repr c' = Citation__repr__ repr c.
Proof.
  intros Hl. split.
  - unfold Citation__repr__. by destruct (truthy (_use c)), (truthy (_level c)).
  - destruct (step_keeps_objects o w l c Hl) as (c' & Hl' & He & Hu & Hlv).
    exists c'. split; [done |]. unfold Citation__repr__. by rewrite He, Hu, Hlv.
Qed.

Lemma citation_repr_stable_witness :
  let w := exec (cite (PStr "K1") PNone (PStr "here")) with_paper in
  ∃ c', heap (step (CallCite (PStr "K1") (PStr "again") PNone) w) !! 0%nat
          = Some c' ∧
        Citation__repr__ (λ _, "_") c' = "Citation(_, level=_)".
Proof.
  set (w := exec (cite (PStr "K1") PNone (PStr "here")) with_paper).
  assert (Hl : heap w !! 0%nat =
               Some (bump (Citation__init__ paper PNone (PStr "here"))))
    by (by vm_compute).
  destruct (citation_repr_stable (λ _, "_")
              (CallCite (PStr "K1") (PStr "again") PNone) w 0%nat _ Hl)
    as (_ & c' & Hc' & Hrepr).
  exists c'. split; [exact Hc' |]. rewrite Hrepr. reflexivity.
Defined.

(** X24. The summary line of a collector whose citations are backed by
    entries never counts more citations than entries, and citing a key that
    already has a citation leaves the line as it was. *)
Theorem str_counts (w : World) :
  backed w →
  (∃ n m : nat,
     DueCreditCollector__str__ w =
       "DueCreditCollector " +:+ pretty n +:+ " entries, " +:+ pretty m
         +:+ " citations" ∧
     (m ≤ n)%nat) ∧
  (∀ a u lv k, resolve a w = Some k → is_Some (citations w !! k) →
     DueCreditCollector__str__ (exec (cite a u lv) w)
       = DueCreditCollector__str__ w).
Proof.
  intros Hb. split.
  - exists (size (_entries w)), (size (citations w)). split; [done |].
    rewrite <- !size_dom. by apply subseteq_size.
  - intros a u lv k Ha [l Hl].
    destruct (proj1 (resolve_resolve_entry a w k) Ha) as (e & He & <-).
    unfold exec. rewrite (cite_existing a u lv w e l He Hl).
    unfold DueCreditCollector__str__. simpl. rewrite citations_registered.
    destruct a as [| s | n | e0 | l0]; try done.
    simpl in *. injection He as ->.
    assert (Hin : get_key e ∈ dom (_entries w))
      by (apply Hb, elem_of_dom; eauto).
    apply elem_of_dom in Hin.
    by rewrite (map_size_insert_Some _ _ _ Hin).
Qed.

Lemma str_counts_witness :
  let w := exec (cite (PStr "K1") PNone PNone) with_paper in
  backed w ∧
  DueCreditCollector__str__ (exec (cite (PEntry paper') PNone PNone) w) =
    "DueCreditCollector 1 entries, 1 citations".
Proof.
  set (w := exec (cite (PStr "K1") PNone PNone) with_paper).
  assert (Hb : backed w).
  { apply cite_keeps. split; [exact own_key_with_paper |].
    unfold backed. simpl. by rewrite dom_empty_L. }
  simpl. split; [exact Hb |].
  destruct (str_counts w Hb) as [_ H].
  rewrite (H (PEntry paper') PNone PNone "K1" eq_refl); [by vm_compute |].
  exists 0%nat. by vm_compute.
Defined.

(** ** Counting over runs *)

Lemma count_at_step_other o w k :
  consistent w →
  (∀ a u lv, o = CallCite a u lv → resolve a w ≠ Some k) →
  count_at k (step o w) = count_at k w.
Proof.
  intros Hw Ho. destruct o as [v | a u lv | src]; simpl.
  - destruct (add_frames v w) as (Hc & Hh & _). unfold count_at. by rewrite Hc, Hh.
  - apply cite_other_count; eauto.
  - unfold exec.
    destruct (load_cases src w) as [-> | [-> | (s & _ & _ & ->)]]; done.
Qed.

(** X25. Counts are exact: after any run of calls of [add], [cite] and
    [load] on a consistent collector, the count under a key has grown by the
    number of [cite] calls of the run that worked on that key.  From a new
    collector the count is that number. *)
Theorem counts_are_exact (k : string) (ops : list op) (w : World) :
  consistent w →
  count_at k (steps ops w) = count_at k w + Z.of_nat (cites_of k ops w) ∧
  count_at k (steps ops empty_collector)
    = Z.of_nat (cites_of k ops empty_collector).
Proof.
  assert (H : ∀ w0, consistent w0 →
            count_at k (steps ops w0) = count_at k w0 + Z.of_nat (cites_of k ops w0)).
  { induction ops as [| o ops IH]; intros w0 Hw0; simpl; [lia |].
    rewrite IH by (by apply consistent_step).
    destruct o as [v | a u lv | src];
      try (rewrite count_at_step_other by done; simpl; lia).
    destruct (decide (resolve a w0 = Some k)) as [Ha | Ha].
    - destruct (cite_step k a u lv w0 (consistent_store_ok w0 Hw0) Ha)
        as (l & w1 & Hcite & _ & _ & Hcount & _).
      simpl. unfold exec. rewrite Hcite. simpl. rewrite Hcount. lia.
    - rewrite count_at_step_other; [lia | done |].
      by intros a' u' lv' [= <- _ _]. }
  intros Hw. split; [by apply H |].
  rewrite H by exact consistent_empty. done.
Qed.

Lemma counts_are_exact_witness :
  count_at "K1"
    (steps [CallCite (PEntry paper) PNone PNone;
            CallCite (PStr "b") PNone PNone;
            CallAdd (PEntry misfiled);
            CallCite (PStr "b") PNone PNone;
            CallCite (PStr "K1") PNone PNone] empty_collector) = 2.
Proof.
  destruct (counts_are_exact "K1"
              [CallCite (PEntry paper) PNone PNone;
               CallCite (PStr "b") PNone PNone;
               CallAdd (PEntry misfiled);
               CallCite (PStr "b") PNone PNone;
               CallCite (PStr "K1") PNone PNone] empty_collector
              consistent_empty) as [_ H].
  rewrite H. by vm_compute.
Defined.

(** ** [__init__] *)

(** X26. A collector made from the dictionaries (and citation objects) of
    another has the same dictionaries and objects: [x or {}] replaces an
    empty dictionary by an empty one and keeps any other.  So a collector
    rebuilt from a consistent one is consistent, and counts carry over. *)
Theorem init_from_dictionaries (w : World) :
  let w' := DueCreditCollector__init__ (Some (_entries w)) (Some (citations w))
              (heap w) in
  w' = set_lgr (λ _, []) w ∧
  (consistent w → consistent w') ∧
  (∀ k, count_at k w' = count_at k w) ∧
  DueCreditCollector__init__ None None [] =
    DueCreditCollector__init__ (Some ∅) (Some ∅) [].
Proof.
  assert (Heq : DueCreditCollector__init__ (Some (_entries w))
                  (Some (citations w)) (heap w) = set_lgr (λ _, []) w).
  { unfold DueCreditCollector__init__, set_lgr, or_empty.
    destruct (decide (_entries w = ∅)) as [-> | ?];
      destruct (decide (citations w = ∅)) as [-> | ?]; done. }
  intros w'. subst w'. rewrite Heq.
  split; [done |]. split; [intros Hw; exact Hw |]. split; [done |].
  unfold DueCreditCollector__init__, or_empty. by rewrite !decide_True.
Qed.

Lemma init_from_dictionaries_witness :
  consistent
    (DueCreditCollector__init__
       (Some (_entries (exec (cite (PStr "K1") PNone PNone) with_paper)))
       (Some (citations (exec (cite (PStr "K1") PNone PNone) with_paper)))
       (heap (exec (cite (PStr "K1") PNone PNone) with_paper))).
Proof.
  apply (init_from_dictionaries
           (exec (cite (PStr "K1") PNone PNone) with_paper)).
  apply (consistent_steps [CallAdd (PEntry paper);
                           CallCite (PStr "K1") PNone PNone] empty_collector).
  exact consistent_empty.
Defined.
